(** * kfs.generators: batch partitioning and time-delay batch generators

    A shallow embedding of [kfs/generators.py] (Python 2, NumPy, Keras 1.x)
    together with the properties of its windowing arithmetic, of its
    delay-index construction, of the assembled batches and of the
    generator loops.

    Conventions of the embedding
    - Python integers are [Z]; list positions and array axes are [nat].
    - A 1-D integer NumPy array (index arrays, [batch_ids]) is a [list Z].
    - A numeric n-d array is a shape together with an element function.
    - A Python exception is the [Raise] result; a loop that never reaches a
      [yield] is the absence of a result for every amount of fuel.
    - [np.ceil(a / float(b))] is the exact ceiling of the quotient: for
      operands below 2^53 (array lengths are) the rounded float quotient has
      the same ceiling as the exact one. *)

From Stdlib Require Import ZArith Lia List String DecimalString Permutation.
From Stdlib Require QArith_base.
From stdpp Require Import base list.
Import ListNotations.
Local Open Scope Z_scope.

(** ** Python results *)

Inductive pyerr : Type :=
| IndexError
| ValueError
| ZeroDivisionError
| NameError.

Inductive result (A : Type) : Type :=
| Ok (a : A)
| Raise (e : pyerr).
Arguments Ok {A} a.
Arguments Raise {A} e.

Definition rbind {A B : Type} (r : result A) (k : A -> result B) : result B :=
  match r with
  | Ok a => k a
  | Raise e => Raise e
  end.

Notation "'let*' x := r 'in' k" := (rbind r (fun x => k))
  (at level 10, x name, r at level 100, k at level 200).

(** ** Integer helpers of the Python code *)

(** [int(np.ceil(a / float(b)))] for [b <> 0]; [Z.div] is floor division. *)
Definition ceil_div (a b : Z) : Z := - ((- a) / b).

(** [range(0, n)]: empty when [n <= 0]. *)
Definition py_range (n : Z) : list Z := Z.of_nat <$> seq 0 (Z.to_nat n).

(** [l[s:e]] with Python's treatment of negative and oversized bounds. *)
Definition py_slice_bound (len i : Z) : Z :=
  if i <? 0 then Z.max 0 (i + len) else Z.min i len.

Definition py_slice {A : Type} (l : list A) (s e : Z) : list A :=
  let len := Z.of_nat (length l) in
  let s' := py_slice_bound len s in
  let e' := py_slice_bound len e in
  take (Z.to_nat (e' - s')) (drop (Z.to_nat s') l).

(** ** Batch partitioners *)

Definition window : Type := (Z * Z)%type.


(** The ceiling as the spec means it: [c] is the least integer with
    [a / b <= c], for a positive divisor. *)
Definition is_ceil (a b c : Z) : Prop := (c - 1) * b < a <= c * b.



(** Modelled from the spec: Keras's [_make_batches] is imported on line 1 and
    is not part of this repository. It is the plain partitioner of the spec:
    chunks of [batch_size] covering [0, size), the last one clipped to
    [size]; [ceil(size / float(batch_size))] chunks. *)
Definition _make_batches (size batch_size : Z) : result (list window) :=
  if batch_size =? 0 then Raise ZeroDivisionError
  else
    let nb_batch := ceil_div size batch_size in
    Ok ((fun i => (i * batch_size, Z.min size ((i + 1) * batch_size)))
          <$> py_range nb_batch).

(** ** NumPy arrays *)

(** An element of a numeric array. The generators only copy elements and
    write the literals [0.] and [1.]; a float is the rational it denotes. *)
Definition scalar : Type := QArith_base.Q.
Definition s_zero : scalar := QArith_base.Qmake 0 1.
Definition s_one : scalar := QArith_base.Qmake 1 1.

Record ndarray : Type := mk_ndarray {
  shape : list nat;
  item : list nat -> scalar
}.

Definition ndim (a : ndarray) : nat := length (shape a).

(** [a.shape[0]]; a 0-d array has an empty shape tuple. *)
Definition shape0 (a : ndarray) : result Z :=
  match shape a with
  | [] => Raise IndexError
  | n :: _ => Ok (Z.of_nat n)
  end.

Fixpoint mapM {A B : Type} (f : A -> result B) (l : list A)
  : result (list B) :=
  match l with
  | [] => Ok []
  | a :: l' => let* b := f a in let* bs := mapM f l' in Ok (b :: bs)
  end.

(** An integer used as an index along an axis of length [n]: negative
    values count from the end, anything outside [-n, n) raises. *)
Definition norm_index (n : nat) (v : Z) : result nat :=
  if (0 <=? v) && (v <? Z.of_nat n) then Ok (Z.to_nat v)
  else if (- Z.of_nat n <=? v) && (v <? 0) then Ok (Z.to_nat (v + Z.of_nat n))
  else Raise IndexError.

(** [a[ids, :]] for a 1-D integer array [ids]: a fresh array. Two indices
    need at least two axes. *)
Definition getitem_rows (a : ndarray) (ids : list Z) : result ndarray :=
  match shape a with
  | n :: (_ :: _) as rest =>
      let* rows := mapM (norm_index n) ids in
      Ok {| shape := length ids :: rest;
            item := fun idx =>
                      match idx with
                      | i :: r => item a (nth i rows 0%nat :: r)
                      | [] => s_zero
                      end |}
  | _ => Raise IndexError
  end.

(** [a[idss, :]] for a Python list [idss] of equally long 1-D integer
    arrays, which NumPy reads as one 2-D index array: a fresh array whose two
    leading axes are those of the index. *)
Definition getitem_rows2 (a : ndarray) (idss : list (list Z))
  : result ndarray :=
  match idss, shape a with
  | ids0 :: _, n :: (_ :: _) as rest =>
      if forallb (fun ids => (length ids =? length ids0)%nat) idss then
        let* rows := mapM (mapM (norm_index n)) idss in
        Ok {| shape := length idss :: length ids0 :: rest;
              item := fun idx =>
                        match idx with
                        | j :: i :: r =>
                            item a (nth i (nth j rows []) 0%nat :: r)
                        | _ => s_zero
                        end |}
      else Raise IndexError
  | _, _ => Raise IndexError
  end.

(** Position of axis [k] in an axes list. *)
Fixpoint index_of (k : nat) (l : list nat) : nat :=
  match l with
  | [] => 0%nat
  | a :: l' => if (a =? k)%nat then 0%nat else S (index_of k l')
  end.

Definition is_axes_perm (axes : list nat) (n : nat) : bool :=
  (length axes =? n)%nat
  && forallb (fun k => existsb (Nat.eqb k) axes) (seq 0 n).

(** [a.transpose(axes)]: axis [i] of the result is axis [axes[i]] of [a]. *)
Definition transpose (a : ndarray) (axes : list nat) : result ndarray :=
  if is_axes_perm axes (ndim a) then
    Ok {| shape := (fun ax => nth ax (shape a) 0%nat) <$> axes;
          item := fun idx =>
                    item a ((fun k => nth (index_of k axes) idx 0%nat)
                              <$> seq 0 (ndim a)) |}
  else Raise ValueError.


(** [a[:, 0]]: a view on column 0 of the second axis. *)
Definition col0 (a : ndarray) : result ndarray :=
  match shape a with
  | n :: m :: rest =>
      if (m =? 0)%nat then Raise IndexError
      else Ok {| shape := n :: rest;
                 item := fun idx =>
                           match idx with
                           | i :: r => item a (i :: 0%nat :: r)
                           | [] => s_zero
                           end |}
  | _ => Raise IndexError
  end.

(** [np.ones(n)]. *)
Definition np_ones (n : Z) : ndarray :=
  {| shape := [Z.to_nat n]; item := fun _ => s_one |}.

(** ** The store of array buffers

    Arrays are Python objects shared by reference: the caller's [x], [y] and
    [weights] and every array the generator creates live in one store.
    Advanced indexing ([a[ids, :]]) and [np.ones] allocate a new buffer;
    basic indexing ([a[:, 0]]) and [transpose] are views on a buffer. *)

Definition loc : Type := nat.
Abbreviation heap := (list ndarray) (only parsing).

Definition alloc (h : heap) (a : ndarray) : loc * heap :=
  (length h, h ++ [a]).

Definition load (h : heap) (l : loc) : result ndarray :=
  match h !! l with
  | Some a => Ok a
  | None => Raise NameError
  end.

(** A reference to a whole buffer, or to the column-0 view of one. *)
Inductive view : Type :=
| Whole (c : loc)
| Col0 (c : loc).

Definition view_get (h : heap) (v : view) : result ndarray :=
  match v with
  | Whole c => load h c
  | Col0 c => let* a := load h c in col0 a
  end.

(** The buffer after [v[mask] = x], written through the view. *)
Definition set_where (v : view) (mask : list bool) (x : scalar) (a : ndarray)
  : ndarray :=
  {| shape := shape a;
     item := fun idx =>
               match v, idx with
               | Whole _, i :: _ =>
                   if nth i mask false then x else item a idx
               | Col0 _, i :: O :: _ =>
                   if nth i mask false then x else item a idx
               | _, _ => item a idx
               end |}.

Definition view_loc (v : view) : loc :=
  match v with Whole c => c | Col0 c => c end.

(** [v[mask] = x] for a boolean [mask], which must be as long as the
    leading axis of [v]. *)
Definition mask_assign (h : heap) (v : view) (mask : list bool) (x : scalar)
  : result heap :=
  let* w := view_get h v in
  let* n := shape0 w in
  if n =? Z.of_nat (length mask) then
    let* a := load h (view_loc v) in
    Ok (<[view_loc v := set_where v mask x a]> h)
  else Raise IndexError.

(** ** Keras's standardization helpers *)

Definition named (A : Type) : Type := list (string * A).

(** Modelled from the spec: Keras's [_standardize_input_data] is imported on
    line 1 and is not part of this repository. It packages a list of arrays
    under the given names, in order, and fails when the two do not match. *)
Definition _standardize_input_data (data : list ndarray)
           (names : list string) : result (named ndarray) :=
  if (length data =? length names)%nat then Ok (zip names data)
  else Raise ValueError.

(** Modelled from the spec: Keras's [_standardize_sample_weights], likewise
    imported; it packages the weight array under its name. *)
Definition _standardize_sample_weights (w : ndarray) (names : list string)
  : result (named ndarray) :=
  _standardize_input_data [w] names.

(** ['x_batch' + str(i)] *)
Definition x_batch_name (i : nat) : string :=
  ("x_batch" ++ NilZero.string_of_uint (Nat.to_uint i))%string.

(** ** Random shuffling

    [np.random] is a global random source: a stream of draws. *)

Definition rng : Type := nat -> nat.

Definition rng_next (r : rng) : rng := fun i => r (S i).

Definition swap {A : Type} (l : list A) (i j : nat) : list A :=
  match l !! i, l !! j with
  | Some a, Some b => <[i := b]> (<[j := a]> l)
  | _, _ => l
  end.

(** [np.random.shuffle] on a 1-D array, in place:
    [for i in reversed(range(1, n)): j = random_interval(i); swap(i, j)]. *)
Fixpoint shuffle_from (i : nat) (r : rng) (l : list Z) : list Z * rng :=
  match i with
  | O => (l, r)
  | S i' => shuffle_from i' (rng_next r) (swap l i (r 0%nat mod S i)%nat)
  end.

Definition np_random_shuffle (r : rng) (l : list Z) : list Z * rng :=
  shuffle_from (length l - 1) r l.

(** ** Delay-index builders *)

(** Line 76: [np.minimum(np.maximum(0, batch_ids - d), n - 1)]. *)
Definition delay_ids (n d : Z) (batch_ids : list Z) : list Z :=
  (fun b => Z.min (Z.max 0 (b - d)) (n - 1)) <$> batch_ids.

(** Line 124 of [time_delay_generator_AE]:
    [[np.maximum(0, batch_ids - d) for d in range(delays)]]. *)
Definition AE_delay_ids (delays : Z) (batch_ids : list Z) : list (list Z) :=
  (fun d => (fun b => Z.max 0 (b - d)) <$> batch_ids) <$> py_range delays.


(** ** [time_delay_generator] *)

Inductive x_arg : Type :=
| XArray (x : loc)
| XList (xs : list loc).

Inductive delays_arg : Type :=
| DInt (n : Z)
| DList (ds : list Z).

Record td_args : Type := mk_td_args {
  a_x : x_arg;
  a_y : option loc;
  a_delays : delays_arg;
  a_batch_size : Z;
  a_weights : option loc;
  a_shuffle : bool
}.

(** The generator frame's variables that are set once (lines 62-70). *)
Record td_locals : Type := mk_td_locals {
  l_delays : list Z;
  l_x : list loc;
  l_tlists : list (list nat);
  l_batches : list window
}.

(** A yielded value: [x_batch], or [(x_batch, y_batch, w_batch)]. *)
Inductive batch : Type :=
| BatchX (x_batch : named ndarray)
| BatchXYW (x_batch y_batch w_batch : named ndarray).

(** [x[0].shape[0]] *)
Definition x0_len (h : heap) (xs : list loc) : result Z :=
  match xs with
  | [] => Raise IndexError
  | x0 :: _ => let* a := load h x0 in shape0 a
  end.

(** [[xx[batch_ids_delay, :].transpose(tt) for xx, tt in zip(x, tlists)]]:
    each gather is a new buffer, its transpose a view on it. *)
Fixpoint gather_xs (h : heap) (xts : list (loc * list nat))
         (idss : list (list Z)) : result (list ndarray * heap) :=
  match xts with
  | [] => Ok ([], h)
  | (xx, tlist) :: rest =>
      let* a := load h xx in
      let* g := getitem_rows2 a idss in
      let* t := transpose g tlist in
      let* r := gather_xs (snd (alloc h g)) rest idss in
      Ok (t :: fst r, snd r)
  end.

(** [delays[-1]] *)
Definition py_last (l : list Z) : result Z :=
  match last l with
  | Some d => Ok d
  | None => Raise IndexError
  end.

(** Lines 82-85: the weight array of the batch, as a reference. *)
Definition td_weights (h : heap) (weights : option loc)
           (x_batch : named ndarray) (batch_ids : list Z)
  : result (view * heap) :=
  match weights with
  | Some lw =>
      let* wa := load h lw in
      let* wg := getitem_rows wa batch_ids in
      let* _ := col0 wg in
      Ok (Col0 (fst (alloc h wg)), snd (alloc h wg))
  | None =>
      match x_batch with
      | [] => Raise IndexError
      | (_, xb0) :: _ =>
          let* n := shape0 xb0 in
          Ok (Whole (fst (alloc h (np_ones n))), snd (alloc h (np_ones n)))
      end
  end.

(** Lines 76-88: the body of the [for] loop up to its [yield]. *)
Definition td_body (h : heap) (y weights : option loc) (L : td_locals)
           (batch_ids : list Z) : result (batch * heap) :=
  let* batch_ids_delay :=
    mapM (fun d => let* n := x0_len h (l_x L) in Ok (delay_ids n d batch_ids))
         (l_delays L) in
  let* gx := gather_xs h (zip (l_x L) (l_tlists L)) batch_ids_delay in
  let* x_batch := _standardize_input_data
               (fst gx) (x_batch_name <$> seq 1 (length (l_x L))) in
  match y with
  | None => Ok (BatchX x_batch, snd gx)
  | Some ly =>
      let* ya := load (snd gx) ly in
      let* yg := getitem_rows ya batch_ids in
      let* y_batch := _standardize_input_data [yg] ["y_batch"%string] in
      let* wv := td_weights (snd (alloc (snd gx) yg)) weights x_batch batch_ids in
      let* dlast := py_last (l_delays L) in
      let* h' := mask_assign (snd wv) (fst wv)
                        ((fun b => b <? dlast) <$> batch_ids) s_zero in
      let* w := view_get h' (fst wv) in
      let* w_batch := _standardize_sample_weights w ["w_batch"%string] in
      Ok (BatchXYW x_batch y_batch w_batch, h')
  end.

(** Lines 62-63: an integer [delays] stands for [range(delays)]. *)
Definition td_delays (args : td_args) : list Z :=
  match a_delays args with
  | DInt n => py_range n
  | DList ds => ds
  end.

(** Lines 65-66: a single array is wrapped in a list. *)
Definition td_x (args : td_args) : list loc :=
  match a_x args with
  | XArray x => [x]
  | XList xs => xs
  end.

(** Line 69: [[[1, 0] + list(range(2, np.ndim(xx) + 1)) for xx in x]]. *)
Definition td_tlists (h : heap) (x : list loc) : result (list (list nat)) :=
  mapM (fun xx => let* a := load h xx in
                  Ok (1 :: 0 :: seq 2 (ndim a - 1))%nat) x.

(** Lines 62-70, run by the first [next]. Returns the locals and the
    initial [index_array]. *)
Definition td_init (h : heap) (args : td_args)
  : result (td_locals * list Z) :=
  let delays := td_delays args in
  let x := td_x args in
  let* n := x0_len h x in
  let* tlists := td_tlists h x in
  let* n' := x0_len h x in
  let* batches := _make_batches n' (a_batch_size args) in
  Ok ({| l_delays := delays; l_x := x;
         l_tlists := tlists; l_batches := batches |},
      py_range n).

(** What the generator shares with the rest of the program. *)
Record world : Type := mk_world {
  w_heap : heap;
  w_rng : rng
}.

(** A suspended generator: not started, or stopped at the [yield] of batch
    [batch_index] with its own [index_array]. *)
Inductive td_state : Type :=
| TdStart
| TdAt (L : td_locals) (index_array : list Z) (batch_index : nat).

Definition td_yield (args : td_args) (w : world) (L : td_locals)
           (index_array : list Z) (k : nat) (be : window)
  : result (batch * world * td_state) :=
  let* r := td_body (w_heap w) (a_y args) (a_weights args) L
               (py_slice index_array (fst be) (snd be)) in
  Ok (fst r, {| w_heap := snd r; w_rng := w_rng w |},
      TdAt L index_array k).

(** From the top of [while 1] to the next [yield]. One unit of fuel is
    spent per turn of the [while] loop. *)
Fixpoint td_while (fuel : nat) (args : td_args) (w : world) (L : td_locals)
         (index_array : list Z)
  : option (result (batch * world * td_state)) :=
  match fuel with
  | O => None
  | S fuel' =>
      let sh := if a_shuffle args
                then np_random_shuffle (w_rng w) index_array
                else (index_array, w_rng w) in
      let w' := {| w_heap := w_heap w; w_rng := snd sh |} in
      match l_batches L with
      | be :: _ => Some (td_yield args w' L (fst sh) 0 be)
      | [] => td_while fuel' args w' L (fst sh)
      end
  end.

(** One call of the generator's [next]. The [threadsafe_iter] wrapper
    (lines 6-27) only takes a lock around this call. *)
Definition td_next (fuel : nat) (args : td_args) (w : world) (st : td_state)
  : option (result (batch * world * td_state)) :=
  match st with
  | TdStart =>
      match td_init (w_heap w) args with
      | Raise e => Some (Raise e)
      | Ok (L, index_array) => td_while fuel args w L index_array
      end
  | TdAt L index_array k =>
      match l_batches L !! S k with
      | Some be => Some (td_yield args w L index_array (S k) be)
      | None => td_while fuel args w L index_array
      end
  end.

(** [n] successive calls of [next], each on the world the previous one
    left; the yielded batches in order. *)
Fixpoint td_run (n fuel : nat) (args : td_args) (w : world) (st : td_state)
  : option (result (list batch * world * td_state)) :=
  match n with
  | O => Some (Ok ([], w, st))
  | S n' =>
      match td_next fuel args w st with
      | None => None
      | Some (Raise e) => Some (Raise e)
      | Some (Ok (b, w', st')) =>
          match td_run n' fuel args w' st' with
          | None => None
          | Some (Raise e) => Some (Raise e)
          | Some (Ok (bs, w'', st'')) => Some (Ok (b :: bs, w'', st''))
          end
      end
  end.

(** The states a generator created with [args] can be in: the first [next]
    runs in the store [h0], the later ones in any world. *)
Inductive td_reachable (args : td_args) (h0 : heap) : td_state -> Prop :=
| td_reach_start : td_reachable args h0 TdStart
| td_reach_next fuel w st b w' st' :
    td_reachable args h0 st ->
    (st = TdStart -> w_heap w = h0) ->
    td_next fuel args w st = Some (Ok (b, w', st')) ->
    td_reachable args h0 st'.

(** The [batch_ids] of every batch of the pass in progress. *)
Definition pass_batch_ids (L : td_locals) (index_array : list Z)
  : list (list Z) :=
  (fun be => py_slice index_array (fst be) (snd be)) <$> l_batches L.

(** ** [time_delay_generator_conv] *)













(** ** [time_delay_generator_AE] *)

(** Number of elements of an array of shape [sh]. *)
Definition size_of (sh : list nat) : nat := fold_right Nat.mul 1%nat sh.

(** The multi-index, in C order, of the flat position [j] in shape [sh]. *)
Fixpoint unravel (sh : list nat) (j : nat) : list nat :=
  match sh with
  | [] => []
  | _ :: sh' => (j / size_of sh')%nat :: unravel sh' (j mod size_of sh')%nat
  end.

(** The flat position, in C order, of a multi-index in shape [sh]. *)
Fixpoint ravel (sh idx : list nat) : nat :=
  match sh, idx with
  | _ :: sh', i :: idx' => (i * size_of sh' + ravel sh' idx')%nat
  | _, _ => 0%nat
  end.

(** [np.copy(a).reshape((a.shape[0], -1))]: a fresh array that keeps the
    leading axis and flattens the others in C order. The length [-1] cannot
    be inferred when the leading axis is empty. *)
Definition reshape_rows (a : ndarray) : result ndarray :=
  match shape a with
  | [] => Raise IndexError
  | n :: sh' =>
      if (n =? 0)%nat then Raise ValueError
      else Ok {| shape := [n; size_of sh'];
                 item := fun idx =>
                           match idx with
                           | [i; j] => item a (i :: unravel sh' j)
                           | _ => s_zero
                           end |}
  end.

Record ae_args : Type := mk_ae_args {
  ae_delays : Z;
  ae_batch_size : Z;
  ae_shuffle : bool;
  ae_conv3d : bool
}.

Record ae_locals : Type := mk_ae_locals {
  ael_tlist : list nat;
  ael_batches : list window
}.

(** Lines 114-117: [[1, 2, 0] + range(3, np.ndim(x) + 1)] or
    [[1, 0] + range(2, np.ndim(x) + 1)]. *)
Definition ae_tlist (x : ndarray) (p : ae_args) : list nat :=
  if ae_conv3d p then (1 :: 2 :: 0 :: seq 3 (ndim x + 1 - 3))%nat
  else (1 :: 0 :: seq 2 (ndim x - 1))%nat.

(** Lines 113-118; returns the locals and the initial [index_array]. *)
Definition ae_init (x : ndarray) (p : ae_args)
  : result (ae_locals * list Z) :=
  let* n := shape0 x in
  let* n' := shape0 x in
  let* batches := _make_batches n' (ae_batch_size p) in
  Ok ({| ael_tlist := ae_tlist x p; ael_batches := batches |}, py_range n).

(** Lines 124-126: the body of the [for] loop up to its [yield]. *)
Definition ae_body (x : ndarray) (p : ae_args) (L : ae_locals)
           (batch_ids : list Z) : result (named ndarray * named ndarray) :=
  let batch_ids := AE_delay_ids (ae_delays p) batch_ids in
  let* g := getitem_rows2 x batch_ids in
  let* t := transpose g (ael_tlist L) in
  let* x_batch := _standardize_input_data [t] ["x_batch"%string] in
  match x_batch with
  | [] => Raise IndexError
  | (_, xb0) :: _ =>
      let* y := reshape_rows xb0 in
      let* y_batch := _standardize_input_data [y] ["y_batch"%string] in
      Ok (x_batch, y_batch)
  end.

Inductive ae_state : Type :=
| AeStart
| AeAt (L : ae_locals) (index_array : list Z) (batch_index : nat).

Definition ae_yield (x : ndarray) (p : ae_args) (r : rng) (L : ae_locals)
           (index_array : list Z) (k : nat) (be : window)
  : result (named ndarray * named ndarray * rng * ae_state) :=
  let* b := ae_body x p L (py_slice index_array (fst be) (snd be)) in
  Ok (b, r, AeAt L index_array k).

(** From the top of [while 1] to the next [yield]; [x] is the current
    content of the array argument, [r] the global random source. *)
Fixpoint ae_while (fuel : nat) (x : ndarray) (p : ae_args) (r : rng)
         (L : ae_locals) (index_array : list Z)
  : option (result (named ndarray * named ndarray * rng * ae_state)) :=
  match fuel with
  | O => None
  | S fuel' =>
      let sh := if ae_shuffle p
                then np_random_shuffle r index_array
                else (index_array, r) in
      match ael_batches L with
      | be :: _ => Some (ae_yield x p (snd sh) L (fst sh) 0 be)
      | [] => ae_while fuel' x p (snd sh) L (fst sh)
      end
  end.

Definition ae_next (fuel : nat) (x : ndarray) (p : ae_args) (r : rng)
           (st : ae_state)
  : option (result (named ndarray * named ndarray * rng * ae_state)) :=
  match st with
  | AeStart =>
      match ae_init x p with
      | Raise e => Some (Raise e)
      | Ok (L, index_array) => ae_while fuel x p r L index_array
      end
  | AeAt L index_array k =>
      match ael_batches L !! S k with
      | Some be => Some (ae_yield x p r L index_array (S k) be)
      | None => ae_while fuel x p r L index_array
      end
  end.

(** ** Sample inputs *)

(** An array of the given shape whose element at an index is the number
    written with the index's components as decimal digits. *)
Definition ex_array (sh : list nat) : ndarray :=
  {| shape := sh;
     item := fun idx =>
               QArith_base.Qmake
                 (Z.of_nat (fold_left (fun acc i => 10 * acc + i)%nat idx 0%nat))
                 1 |}.

(** A store with [x] of shape (6, 2) at 0, [y] of shape (6, 1) at 1, a
    second source array of shape (6, 1, 3) at 2 and a weight array of shape
    (6, 1) at 3. *)
Definition ex_heap : heap :=
  [ex_array [6; 2]%nat; ex_array [6; 1]%nat; ex_array [6; 1; 3]%nat;
   ex_array [6; 1]%nat].

Definition ex_rng : rng := fun i => (7 * i + 3)%nat.

Definition ex_world : world := {| w_heap := ex_heap; w_rng := ex_rng |}.

(** Two delays given as a count, batches of 4, weights from the store,
    shuffling. *)
Definition ex_args_weights : td_args :=
  mk_td_args (XArray 0%nat) (Some 1%nat) (DInt 2) 4 (Some 3%nat) true.


(** Three delays given as a count, no weight array, one unshuffled batch of
    all six samples. *)
Definition ex_args_three : td_args :=
  mk_td_args (XArray 0%nat) (Some 1%nat) (DInt 3) 6 None false.



(** A store whose only array has no rows. *)
Definition ex_heap_empty : heap := [ex_array [0; 2]%nat].

(** Three delays, batches of 4, shuffling, plain layout. *)
Definition ex_ae : ae_args := mk_ae_args 3 4 true false.

(** The same with the [conv3d] layout. *)
Definition ex_ae3 : ae_args := mk_ae_args 3 4 true true.

(** ** Notions used in the statements *)

(** Every buffer of [h] is still in [h'], with the same content. *)
Definition heap_ext (h h' : heap) : Prop :=
  forall (l : loc) (a : ndarray), h !! l = Some a -> h' !! l = Some a.


(** The index array at the start of a pass that follows a pass on [ia]. *)
Definition reshuffled (args : td_args) (w : world) (ia : list Z) : list Z :=
  if a_shuffle args then fst (np_random_shuffle (w_rng w) ia) else ia.

(** What holds of every state a generator created with [args] in the store
    [h0] stops in. *)
Definition td_inv (args : td_args) (h0 : heap) (st : td_state) : Prop :=
  match st with
  | TdStart => True
  | TdAt L ia k =>
      exists N,
        x0_len h0 (td_x args) = Ok N
        /\ Permutation ia (py_range N)
        /\ l_delays L = td_delays args
        /\ l_x L = td_x args
        /\ td_tlists h0 (td_x args) = Ok (l_tlists L)
        /\ _make_batches N (a_batch_size args) = Ok (l_batches L)
        /\ is_Some (l_batches L !! k)
  end.


(** Well-formed input of [time_delay_generator] in the store [h]: the first
    source array has [N >= 1] rows, every source array has at least two axes
    and at least [N] rows, so have [y] and [weights] when given, [weights]
    has a column 0, the delay set is not empty and [batch_size] is
    positive. *)
Definition td_wf (args : td_args) (h : heap) (N : Z) : Prop :=
  1 <= N
  /\ x0_len h (td_x args) = Ok N
  /\ td_delays args <> []
  /\ 0 < a_batch_size args
  /\ (forall (k : nat) (xx : loc),
        td_x args !! k = Some xx ->
        exists a n m rest,
          h !! xx = Some a /\ shape a = n :: m :: rest /\ N <= Z.of_nat n)
  /\ (forall ly : loc,
        a_y args = Some ly ->
        exists a n m rest,
          h !! ly = Some a /\ shape a = n :: m :: rest /\ N <= Z.of_nat n)
  /\ (forall lw : loc,
        a_weights args = Some lw ->
        exists a n m rest,
          h !! lw = Some a /\ shape a = n :: S m :: rest
          /\ N <= Z.of_nat n).

(** The states a generator created by [time_delay_generator_AE] on the
    array [x0] can be in: the first [next] sees [x0], the later ones any
    content of the array. *)
Inductive ae_reachable (x0 : ndarray) (p : ae_args) : ae_state -> Prop :=
| ae_reach_start : ae_reachable x0 p AeStart
| ae_reach_next fuel x r st b r' st' :
    ae_reachable x0 p st ->
    (st = AeStart -> x = x0) ->
    ae_next fuel x p r st = Some (Ok (b, r', st')) ->
    ae_reachable x0 p st'.

(** What holds of every state such a generator stops in. *)
Definition ae_inv (x0 : ndarray) (p : ae_args) (st : ae_state) : Prop :=
  match st with
  | AeStart => True
  | AeAt L ia k =>
      exists N,
        shape0 x0 = Ok N
        /\ Permutation ia (py_range N)
        /\ ael_tlist L = ae_tlist x0 p
        /\ _make_batches N (ae_batch_size p) = Ok (ael_batches L)
        /\ is_Some (ael_batches L !! k)
  end.

(** ** Facts about the helpers *)

Lemma ceil_div_is_ceil (a b : Z) : 0 < b -> is_ceil a b (ceil_div a b).
Proof.
  intros Hb. unfold is_ceil, ceil_div.
  pose proof (Z.div_mod (- a) b ltac:(lia)) as Hdm.
  pose proof (Z.mod_pos_bound (- a) b Hb) as Hm.
  nia.
Qed.


Lemma length_py_range (n : Z) : Z.of_nat (length (py_range n)) = Z.max 0 n.
Proof. unfold py_range. rewrite length_fmap, length_seq. lia. Qed.

Lemma lookup_py_range (n : Z) (i : nat) :
  (i < length (py_range n))%nat -> py_range n !! i = Some (Z.of_nat i).
Proof.
  unfold py_range. rewrite length_fmap, length_seq. intros Hi.
  rewrite list_lookup_fmap, lookup_seq_lt by lia. reflexivity.
Qed.

Lemma lookup_py_range_Some (n : Z) (i : nat) (v : Z) :
  py_range n !! i = Some v -> v = Z.of_nat i /\ Z.of_nat i < n.
Proof.
  intros H. pose proof (lookup_lt_Some _ _ _ H) as Hlt.
  rewrite lookup_py_range in H by exact Hlt.
  pose proof (length_py_range n). split; [congruence | lia].
Qed.





(** ** The overlap partitioner *)







(** ** Results and traversals *)

Lemma rbind_Ok {A B : Type} (r : result A) (k : A -> result B) (v : B) :
  rbind r k = Ok v -> exists a, r = Ok a /\ k a = Ok v.
Proof. destruct r as [a|e]; simpl; [eauto | discriminate]. Qed.

Ltac inv_bind H :=
  let a := fresh "a" in
  let Ha := fresh "Ha" in
  apply rbind_Ok in H; destruct H as (a & Ha & H).

Tactic Notation "inv_bind_as" hyp(H) ident(a) ident(Ha) :=
  apply rbind_Ok in H; destruct H as (a & Ha & H).

Lemma mapM_Ok_fmap {A B : Type} (f : A -> result B) (g : A -> B)
      (l : list A) :
  Forall (fun a => f a = Ok (g a)) l -> mapM f l = Ok (g <$> l).
Proof.
  induction 1 as [|a l Ha _ IH]; simpl; [reflexivity|].
  rewrite Ha. simpl. rewrite IH. reflexivity.
Qed.

Lemma mapM_Ok_length {A B : Type} (f : A -> result B) (l : list A)
      (bs : list B) :
  mapM f l = Ok bs -> length bs = length l.
Proof.
  revert bs. induction l as [|a l IH]; simpl; intros bs H.
  - injection H as <-. reflexivity.
  - inv_bind H. inv_bind H. injection H as <-. simpl. f_equal. eauto.
Qed.

Lemma mapM_Ok_lookup {A B : Type} (f : A -> result B) (l : list A)
      (bs : list B) (i : nat) (a : A) :
  mapM f l = Ok bs -> l !! i = Some a ->
  exists b, bs !! i = Some b /\ f a = Ok b.
Proof.
  revert bs i. induction l as [|a0 l IH]; simpl; intros bs i H Hi.
  - destruct i; discriminate.
  - inv_bind H. inv_bind H. injection H as <-.
    destruct i as [|i]; simpl in *.
    + injection Hi as <-. eauto.
    + eauto.
Qed.

Lemma norm_index_in_range (n : nat) (v : Z) :
  0 <= v < Z.of_nat n -> norm_index n v = Ok (Z.to_nat v).
Proof.
  intros Hv. unfold norm_index.
  destruct (0 <=? v) eqn:E1; [|lia].
  destruct (v <? Z.of_nat n) eqn:E2; [reflexivity | lia].
Qed.

Lemma norm_index_nonneg_Ok (n : nat) (v : Z) (r : nat) :
  0 <= v -> norm_index n v = Ok r -> r = Z.to_nat v /\ v < Z.of_nat n.
Proof.
  intros Hv. unfold norm_index.
  destruct (0 <=? v) eqn:E1; [|lia].
  destruct (v <? Z.of_nat n) eqn:E2; simpl.
  - intros [= <-]. split; [reflexivity | lia].
  - destruct (- Z.of_nat n <=? v); simpl;
      [destruct (v <? 0) eqn:E3; [lia | discriminate] | discriminate].
Qed.

Lemma mapM_norm_index_in_range (n : nat) (ids : list Z) :
  Forall (fun v => 0 <= v < Z.of_nat n) ids ->
  mapM (norm_index n) ids = Ok (Z.to_nat <$> ids).
Proof.
  intros H. apply mapM_Ok_fmap.
  eapply Forall_impl; [exact H|]. intros v Hv. simpl.
  apply norm_index_in_range, Hv.
Qed.

(** ** The delay-index builders *)



Lemma AE_delay_ids_lookup (delays : Z) (batch_ids dl : list Z) (j : nat) :
  AE_delay_ids delays batch_ids !! j = Some dl ->
  Z.of_nat j < delays
  /\ dl = (fun b => Z.max 0 (b - Z.of_nat j)) <$> batch_ids.
Proof.
  unfold AE_delay_ids. rewrite list_lookup_fmap.
  destruct (py_range delays !! j) as [d|] eqn:Hd; [|discriminate].
  apply lookup_py_range_Some in Hd as [-> Hlt]. simpl.
  intros [= <-]. split; [exact Hlt | reflexivity].
Qed.



(** ** Array operations *)

Lemma fmap_nth_seq_app {A : Type} (d : A) (pre l : list A) :
  (fun k => nth k (pre ++ l) d) <$> seq (length pre) (length l) = l.
Proof.
  revert pre. induction l as [|x l IH]; intros pre; simpl; [reflexivity|].
  f_equal.
  - rewrite app_nth2 by lia. rewrite Nat.sub_diag. reflexivity.
  - specialize (IH (pre ++ [x])). rewrite length_app in IH. simpl in IH.
    rewrite <- app_assoc in IH. simpl in IH.
    replace (S (length pre)) with (length pre + 1)%nat by lia. exact IH.
Qed.

Lemma index_of_seq (x s n : nat) :
  (s <= x < s + n)%nat -> index_of x (seq s n) = (x - s)%nat.
Proof.
  revert s. induction n as [|n IH]; intros s Hx; simpl; [lia|].
  destruct (s =? x)%nat eqn:E.
  - apply Nat.eqb_eq in E. lia.
  - apply Nat.eqb_neq in E. rewrite IH by lia. lia.
Qed.

Lemma is_axes_perm_tlist (k : nat) :
  is_axes_perm (1 :: 0 :: seq 2 k)%nat (S (S k)) = true.
Proof.
  unfold is_axes_perm. cbn [length]. rewrite length_seq, Nat.eqb_refl.
  rewrite andb_true_l. apply forallb_forall. intros x Hx.
  apply in_seq in Hx. apply existsb_exists.
  exists x. split; [|apply Nat.eqb_refl].
  destruct x as [|[|x]]; [right; left; reflexivity | left; reflexivity |].
  right. right. apply in_seq. lia.
Qed.

Lemma index_of_tlist (q k : nat) :
  (q < k)%nat -> index_of (2 + q) (1 :: 0 :: seq 2 k)%nat = (2 + q)%nat.
Proof.
  intros Hq. cbn [index_of].
  replace (1 =? 2 + q)%nat with false by (symmetry; apply Nat.eqb_neq; lia).
  replace (0 =? 2 + q)%nat with false by (symmetry; apply Nat.eqb_neq; lia).
  rewrite index_of_seq by lia. lia.
Qed.

Lemma tlist_source_index (i j : nat) (idx : list nat) :
  (fun q => nth (index_of q (1 :: 0 :: seq 2 (length idx))%nat)
                (i :: j :: idx) 0%nat)
    <$> seq 0 (S (S (length idx)))
  = j :: i :: idx.
Proof.
  change (seq 0 (S (S (length idx))))
    with (0 :: 1 :: seq 2 (length idx))%nat.
  rewrite !fmap_cons. f_equal. f_equal.
  etransitivity; [|exact (fmap_nth_seq_app 0%nat [i; j] idx)].
  apply list_fmap_ext. intros p x Hp.
  apply lookup_seq in Hp as [-> Hp].
  rewrite index_of_tlist by exact Hp. reflexivity.
Qed.

(** Transposing with the axes list of line 69 swaps the two leading axes
    and keeps the others. *)
Lemma transpose_tlist (g : ndarray) (s0 s1 : nat) (r : list nat) :
  shape g = s0 :: s1 :: r ->
  exists t,
    transpose g (1 :: 0 :: seq 2 (length r))%nat = Ok t
    /\ shape t = s1 :: s0 :: r
    /\ forall (i j : nat) (idx : list nat),
         length idx = length r ->
         item t (i :: j :: idx) = item g (j :: i :: idx).
Proof.
  intros Hs. unfold transpose, ndim. rewrite Hs. cbn [length].
  rewrite is_axes_perm_tlist. eexists. split; [reflexivity|].
  split.
  - cbn [shape]. rewrite !fmap_cons. cbn [nth]. do 2 f_equal.
    exact (fmap_nth_seq_app 0%nat [s0; s1] r).
  - intros i j idx Hlen. cbn [item]. rewrite <- Hlen.
    rewrite tlist_source_index. reflexivity.
Qed.

Lemma getitem_rows2_inv (a g : ndarray) (idss : list (list Z)) :
  getitem_rows2 a idss = Ok g ->
  exists n m rest ids0 idss' rows,
    shape a = n :: m :: rest
    /\ idss = ids0 :: idss'
    /\ mapM (mapM (norm_index n)) idss = Ok rows
    /\ shape g = length idss :: length ids0 :: m :: rest
    /\ forall (j i : nat) (r : list nat),
         item g (j :: i :: r) = item a (nth i (nth j rows []) 0%nat :: r).
Proof.
  unfold getitem_rows2. destruct idss as [|ids0 idss']; [discriminate|].
  destruct (shape a) as [|n [|m rest]] eqn:Hs; try discriminate.
  destruct (forallb _ _); [|discriminate].
  intros H. inv_bind H. injection H as <-.
  exists n, m, rest, ids0, idss', a0. repeat split; assumption.
Qed.

Lemma getitem_rows_inv (a g : ndarray) (ids : list Z) :
  getitem_rows a ids = Ok g ->
  exists n m rest rows,
    shape a = n :: m :: rest
    /\ mapM (norm_index n) ids = Ok rows
    /\ shape g = length ids :: m :: rest
    /\ forall (i : nat) (r : list nat),
         item g (i :: r) = item a (nth i rows 0%nat :: r).
Proof.
  unfold getitem_rows.
  destruct (shape a) as [|n [|m rest]] eqn:Hs; try discriminate.
  intros H. inv_bind H. injection H as <-.
  exists n, m, rest, a0. repeat split; assumption.
Qed.

Lemma getitem_rows_in_range (a : ndarray) (n m : nat) (rest : list nat)
      (ids : list Z) :
  shape a = n :: m :: rest ->
  Forall (fun v => 0 <= v < Z.of_nat n) ids ->
  exists g,
    getitem_rows a ids = Ok g
    /\ shape g = length ids :: m :: rest
    /\ forall (i : nat) (r : list nat),
         item g (i :: r) = item a (nth i (Z.to_nat <$> ids) 0%nat :: r).
Proof.
  intros Hs Hin. unfold getitem_rows. rewrite Hs.
  rewrite (mapM_norm_index_in_range _ _ Hin). simpl.
  eexists. split; [reflexivity|]. split; reflexivity.
Qed.

(** ** The store *)

Lemma heap_ext_refl (h : heap) : heap_ext h h.
Proof. intros l a H. exact H. Qed.

Lemma heap_ext_trans (h1 h2 h3 : heap) :
  heap_ext h1 h2 -> heap_ext h2 h3 -> heap_ext h1 h3.
Proof. intros H12 H23 l a H. apply H23, H12, H. Qed.

Lemma heap_ext_app (h fresh : heap) : heap_ext h (h ++ fresh).
Proof. intros l a H. apply lookup_app_l_Some. exact H. Qed.

Lemma heap_ext_alloc (h : heap) (a : ndarray) : heap_ext h (snd (alloc h a)).
Proof. apply heap_ext_app. Qed.

Lemma heap_ext_insert_fresh (h0 h : heap) (c : loc) (a : ndarray) :
  heap_ext h0 h -> (length h0 <= c)%nat -> heap_ext h0 (<[c := a]> h).
Proof.
  intros Hext Hc l b Hl.
  pose proof (lookup_lt_Some _ _ _ Hl) as Hlt.
  rewrite list_lookup_insert_ne by lia. apply Hext, Hl.
Qed.

Lemma heap_ext_length (h h' : heap) :
  heap_ext h h' -> (length h <= length h')%nat.
Proof.
  intros Hext. destruct (decide (length h = 0)%nat) as [E|E]; [lia|].
  destruct (lookup_lt_is_Some_2 h (length h - 1) ltac:(lia)) as [a Ha].
  apply Hext in Ha. apply lookup_lt_Some in Ha. lia.
Qed.

Lemma load_Ok (h : heap) (l : loc) (a : ndarray) :
  load h l = Ok a <-> h !! l = Some a.
Proof.
  unfold load. destruct (h !! l); split; intros H;
    try discriminate; congruence.
Qed.


(** ** Gathering the source arrays *)

Lemma gather_xs_ext (idss : list (list Z)) (xts : list (loc * list nat)) :
  forall (h : heap) (ts : list ndarray) (h' : heap),
    gather_xs h xts idss = Ok (ts, h') -> heap_ext h h'.
Proof.
  induction xts as [|[xx tl] xts IH]; intros h ts h' H; simpl in H.
  - injection H as <- <-. apply heap_ext_refl.
  - inv_bind H. inv_bind H. inv_bind H. inv_bind H. injection H as <- <-.
    destruct a2 as [ts' h'']. simpl.
    apply (heap_ext_trans _ (h ++ [a0]));
      [apply heap_ext_app | eapply IH; exact Ha2].
Qed.



Lemma td_tlists_lookup (h : heap) (xs : list loc) (tlists : list (list nat))
      (k : nat) (xx : loc) :
  td_tlists h xs = Ok tlists -> xs !! k = Some xx ->
  exists a, h !! xx = Some a
            /\ tlists !! k = Some (1 :: 0 :: seq 2 (ndim a - 1))%nat.
Proof.
  intros H Hk. unfold td_tlists in H.
  destruct (mapM_Ok_lookup _ _ _ _ _ H Hk) as (tl & Htl & Hf).
  inv_bind Hf. injection Hf as <-. apply load_Ok in Ha. eauto.
Qed.

Lemma standardize_Ok (data : list ndarray) (names : list string)
      (r : named ndarray) :
  _standardize_input_data data names = Ok r ->
  length data = length names /\ r = zip names data.
Proof.
  unfold _standardize_input_data.
  destruct (length data =? length names)%nat eqn:E; [|discriminate].
  apply Nat.eqb_eq in E. intros [= <-]. split; [exact E | reflexivity].
Qed.

Lemma rows2_lookup (n : nat) (idss : list (list Z)) (rows : list (list nat))
      (j i : nat) (ids : list Z) (v : Z) :
  mapM (mapM (norm_index n)) idss = Ok rows ->
  idss !! j = Some ids -> ids !! i = Some v ->
  exists r, norm_index n v = Ok r /\ nth i (nth j rows []) 0%nat = r.
Proof.
  intros H Hj Hi.
  destruct (mapM_Ok_lookup _ _ _ _ _ H Hj) as (row & Hrow & Hm).
  destruct (mapM_Ok_lookup _ _ _ _ _ Hm Hi) as (r & Hr & Hn).
  exists r. split; [exact Hn|].
  rewrite (nth_lookup_Some _ _ _ _ Hrow). exact (nth_lookup_Some _ _ _ _ Hr).
Qed.




(** ** The assembled [x_batch] *)


(** ** Shuffling *)

Lemma insert_perm_cons {A : Type} (l : list A) (j : nat) (a b : A) :
  l !! j = Some b -> Permutation (b :: <[j := a]> l) (a :: l).
Proof.
  revert j. induction l as [|c t IH]; intros [|j] Hj; simpl in *;
    try discriminate.
  - injection Hj as <-. apply perm_swap.
  - eapply perm_trans; [apply perm_swap|].
    eapply perm_trans; [apply perm_skip, IH, Hj|]. apply perm_swap.
Qed.

Lemma swap_perm {A : Type} (l : list A) (i j : nat) :
  Permutation (swap l i j) l.
Proof.
  unfold swap.
  destruct (l !! i) as [a|] eqn:Hi; [|reflexivity].
  destruct (l !! j) as [b|] eqn:Hj; [|reflexivity].
  revert i j Hi Hj. induction l as [|c t IH]; intros [|i] [|j] Hi Hj;
    simpl in *; try discriminate.
  - injection Hi as <-. injection Hj as <-. reflexivity.
  - injection Hi as <-. apply insert_perm_cons, Hj.
  - injection Hj as <-. apply insert_perm_cons, Hi.
  - apply perm_skip, IH; assumption.
Qed.

Lemma shuffle_from_perm (i : nat) (r : rng) (l : list Z) :
  Permutation (fst (shuffle_from i r l)) l.
Proof.
  revert r l. induction i as [|i IH]; intros r l; simpl; [reflexivity|].
  eapply perm_trans; [apply IH | apply swap_perm].
Qed.

Lemma np_random_shuffle_perm (r : rng) (l : list Z) :
  Permutation (fst (np_random_shuffle r l)) l.
Proof. apply shuffle_from_perm. Qed.

(** ** Steps of [time_delay_generator] *)

Lemma reshuffled_perm (args : td_args) (w : world) (ia : list Z) :
  Permutation (reshuffled args w ia) ia.
Proof.
  unfold reshuffled. destruct (a_shuffle args);
    [apply np_random_shuffle_perm | reflexivity].
Qed.

Lemma td_yield_inv (args : td_args) (w : world) (L : td_locals)
      (ia : list Z) (k : nat) (be : window) (b : batch) (w' : world)
      (st' : td_state) :
  td_yield args w L ia k be = Ok (b, w', st') ->
  st' = TdAt L ia k
  /\ w_rng w' = w_rng w
  /\ td_body (w_heap w) (a_y args) (a_weights args) L
             (py_slice ia (fst be) (snd be)) = Ok (b, w_heap w').
Proof.
  unfold td_yield. intros H. inv_bind H. destruct a as [b0 h1].
  injection H as <- <- <-. simpl. repeat split. exact Ha.
Qed.

Lemma td_while_inv (fuel : nat) (args : td_args) (L : td_locals) :
  forall (w : world) (ia : list Z) (b : batch) (w' : world) (st' : td_state),
    td_while fuel args w L ia = Some (Ok (b, w', st')) ->
    exists be,
      l_batches L !! 0%nat = Some be
      /\ st' = TdAt L (reshuffled args w ia) 0
      /\ td_body (w_heap w) (a_y args) (a_weights args) L
                 (py_slice (reshuffled args w ia) (fst be) (snd be))
         = Ok (b, w_heap w').
Proof.
  induction fuel as [|fuel IH]; intros w ia b w' st' H; simpl in H;
    [discriminate|].
  destruct (l_batches L) as [|be bs] eqn:Eb.
  - apply IH in H as (be & Hbe & _). discriminate.
  - injection H as H. apply td_yield_inv in H as (-> & _ & Hbody).
    exists be. split; [reflexivity|].
    unfold reshuffled. destruct (a_shuffle args); simpl in *;
      split; (reflexivity || exact Hbody).
Qed.

Lemma td_init_inv (h : heap) (args : td_args) (L : td_locals)
      (ia0 : list Z) :
  td_init h args = Ok (L, ia0) ->
  exists N,
    x0_len h (td_x args) = Ok N
    /\ ia0 = py_range N
    /\ l_delays L = td_delays args
    /\ l_x L = td_x args
    /\ td_tlists h (td_x args) = Ok (l_tlists L)
    /\ _make_batches N (a_batch_size args) = Ok (l_batches L).
Proof.
  unfold td_init. intros H. inv_bind H. inv_bind H. inv_bind H. inv_bind H.
  injection H as <- <-. simpl.
  assert (a1 = a) by congruence. subst a1.
  exists a. repeat split; assumption.
Qed.

Lemma td_next_inv (fuel : nat) (args : td_args) (w : world) (st : td_state)
      (b : batch) (w' : world) (st' : td_state) :
  td_next fuel args w st = Some (Ok (b, w', st')) ->
  exists L ia k be,
    st' = TdAt L ia k
    /\ l_batches L !! k = Some be
    /\ td_body (w_heap w) (a_y args) (a_weights args) L
               (py_slice ia (fst be) (snd be)) = Ok (b, w_heap w')
    /\ ((exists ia0, st = TdStart
                     /\ td_init (w_heap w) args = Ok (L, ia0)
                     /\ k = 0%nat /\ ia = reshuffled args w ia0)
        \/ (exists k0, st = TdAt L ia k0 /\ k = S k0)
        \/ (exists ia0 k0, st = TdAt L ia0 k0
                           /\ l_batches L !! S k0 = None
                           /\ k = 0%nat /\ ia = reshuffled args w ia0)).
Proof.
  destruct st as [|L ia0 k0]; simpl; intros H.
  - destruct (td_init (w_heap w) args) as [[L ia0]|e] eqn:Ei;
      [|discriminate].
    apply td_while_inv in H as (be & Hbe & -> & Hbody).
    exists L, (reshuffled args w ia0), 0%nat, be.
    repeat split; try assumption. left. exists ia0. repeat split.
  - destruct (l_batches L !! S k0) as [be|] eqn:Eb.
    + injection H as H. apply td_yield_inv in H as (-> & _ & Hbody).
      exists L, ia0, (S k0), be. repeat split; try assumption.
      right. left. exists k0. split; reflexivity.
    + apply td_while_inv in H as (be & Hbe & -> & Hbody).
      exists L, (reshuffled args w ia0), 0%nat, be.
      repeat split; try assumption.
      right. right. exists ia0, k0. repeat split. exact Eb.
Qed.

Lemma td_reachable_inv (args : td_args) (h0 : heap) (st : td_state) :
  td_reachable args h0 st -> td_inv args h0 st.
Proof.
  induction 1 as [|fuel w st b w' st' Hreach IH Hh0 Hnext]; [exact I|].
  apply td_next_inv in Hnext
    as (L & ia & k & be & -> & Hbe & _ & Hcase).
  destruct Hcase as [(ia0 & -> & Hinit & -> & ->)
                    |[(k0 & -> & ->)|(ia0 & k0 & -> & _ & -> & ->)]].
  - rewrite (Hh0 eq_refl) in Hinit.
    apply td_init_inv in Hinit as (N & HN & -> & HD & Hx & Ht & Hb).
    exists N. repeat split; try assumption; [|eauto].
    apply reshuffled_perm.
  - destruct IH as (N & HN & Hp & HD & Hx & Ht & Hb & _).
    exists N. repeat split; try assumption. eauto.
  - destruct IH as (N & HN & Hp & HD & Hx & Ht & Hb & _).
    exists N. repeat split; try assumption; [|eauto].
    eapply perm_trans; [apply reshuffled_perm | exact Hp].
Qed.



(** ** The weights of a batch *)

Lemma col0_inv (a w : ndarray) :
  col0 a = Ok w ->
  exists n m rest,
    shape a = n :: m :: rest
    /\ shape w = n :: rest
    /\ forall (i : nat) (r : list nat), item w (i :: r) = item a (i :: 0%nat :: r).
Proof.
  unfold col0. destruct (shape a) as [|n [|m rest]] eqn:Hs; try discriminate.
  destruct (m =? 0)%nat; [discriminate|]. intros [= <-].
  exists n, m, rest. repeat split.
Qed.

Lemma shape0_hd (a : ndarray) (n : Z) :
  shape0 a = Ok n -> Z.of_nat (hd 0%nat (shape a)) = n.
Proof.
  unfold shape0. destruct (shape a); [discriminate|]. intros [= <-].
  reflexivity.
Qed.

Lemma mask_assign_view_get (h : heap) (v : view) (mask : list bool)
      (x : scalar) (h' : heap) (w : ndarray) :
  mask_assign h v mask x = Ok h' ->
  view_get h' v = Ok w ->
  exists w0,
    view_get h v = Ok w0
    /\ shape w = shape w0
    /\ hd 0%nat (shape w0) = length mask
    /\ forall (i : nat) (rest : list nat),
         item w (i :: rest)
         = if nth i mask false then x else item w0 (i :: rest).
Proof.
  unfold mask_assign. intros H Hw.
  inv_bind H. rename a into w0, Ha into Hw0.
  inv_bind H. rename a into n, Ha into Hn.
  destruct (n =? Z.of_nat (length mask)) eqn:En; [|discriminate].
  inv_bind H. rename a into cell, Ha into Hcell. injection H as <-.
  apply load_Ok in Hcell. apply shape0_hd in Hn.
  pose proof (lookup_lt_Some _ _ _ Hcell) as Hlt.
  exists w0. split; [exact Hw0|].
  destruct v as [c|c]; simpl in *.
  - apply load_Ok in Hw0, Hw.
    rewrite list_lookup_insert_eq in Hw by exact Hlt.
    injection Hw as <-. assert (w0 = cell) by congruence. subst w0.
    split; [reflexivity|]. split; [lia|]. reflexivity.
  - inv_bind Hw0. apply load_Ok in Ha.
    assert (a = cell) by congruence. subst a.
    inv_bind Hw. apply load_Ok in Ha0.
    rewrite list_lookup_insert_eq in Ha0 by exact Hlt.
    injection Ha0 as <-.
    apply col0_inv in Hw0 as (n0 & m0 & r0 & Hs0 & Hsw0 & Hi0).
    apply col0_inv in Hw as (n1 & m1 & r1 & Hs1 & Hsw1 & Hi1).
    simpl in Hs1. rewrite Hs0 in Hs1. injection Hs1 as <- <- <-.
    split; [congruence|]. split; [rewrite Hsw0 in *; simpl in *; lia|].
    intros i rest. rewrite Hi1, Hi0. reflexivity.
Qed.

Lemma view_get_fresh_whole (h : heap) (a : ndarray) :
  view_get (h ++ [a]) (Whole (length h)) = Ok a.
Proof. simpl. apply load_Ok. apply list_lookup_middle. reflexivity. Qed.

Lemma view_get_fresh_col0 (h : heap) (a : ndarray) :
  view_get (h ++ [a]) (Col0 (length h)) = col0 a.
Proof.
  simpl. replace (load (h ++ [a]) (length h)) with (Ok a); [reflexivity|].
  symmetry. apply load_Ok. apply list_lookup_middle. reflexivity.
Qed.

Lemma mask_lookup (B : list Z) (dlast : Z) (i : nat) (bi : Z) :
  B !! i = Some bi ->
  nth i ((fun b => b <? dlast) <$> B) false = (bi <? dlast).
Proof.
  intros Hi. apply nth_lookup_Some. rewrite list_lookup_fmap, Hi.
  reflexivity.
Qed.

Lemma td_weights_inv (h : heap) (wts : option loc) (xb : named ndarray)
      (B : list Z) (v : view) (h3 : heap) :
  td_weights h wts xb B = Ok (v, h3) ->
  view_loc v = length h
  /\ ((wts = None /\ exists n, v = Whole (length h) /\ h3 = h ++ [np_ones n])
      \/ (exists lw wa wg,
            wts = Some lw /\ v = Col0 (length h) /\ h3 = h ++ [wg]
            /\ h !! lw = Some wa /\ getitem_rows wa B = Ok wg)).
Proof.
  unfold td_weights. destruct wts as [lw|]; intros H.
  - inv_bind_as H wa Hwa. inv_bind_as H wg Hwg. inv_bind_as H c Hc.
    injection H as <- <-. split; [reflexivity|]. right.
    apply load_Ok in Hwa. exists lw, wa, wg. repeat split; assumption.
  - destruct xb as [|[nm xb0] xb]; [discriminate|].
    inv_bind_as H n Hn. injection H as <- <-. split; [reflexivity|].
    left. eauto.
Qed.

Lemma td_body_ext (h : heap) (y wts : option loc) (L : td_locals)
      (B : list Z) (b : batch) (h' : heap) :
  td_body h y wts L B = Ok (b, h') -> heap_ext h h'.
Proof.
  unfold td_body. intros H.
  inv_bind_as H idss Hidss. inv_bind_as H gx Hgx. destruct gx as [ts h1].
  inv_bind_as H xb Hxb. apply gather_xs_ext in Hgx.
  cbn [fst snd alloc] in H.
  destruct y as [ly|]; [|injection H as _ <-; exact Hgx].
  inv_bind_as H ya Hya. inv_bind_as H yg Hyg. inv_bind_as H yb Hyb.
  inv_bind_as H wv Hwv. destruct wv as [v h3].
  inv_bind_as H dlast Hdl. inv_bind_as H h4 Hma. inv_bind_as H w Hvg.
  inv_bind_as H wb Hwb. injection H as _ <-. simpl in *.
  apply td_weights_inv in Hwv as [Hloc Hcase].
  assert (H3 : exists cell, h3 = (h1 ++ [yg]) ++ [cell]).
  { destruct Hcase as [(_ & n & _ & ->)|(lw & wa & wg & _ & _ & -> & _)];
      eauto. }
  destruct H3 as [cell ->].
  unfold mask_assign in Hma. inv_bind_as Hma w0 Hw0. inv_bind_as Hma n Hn.
  destruct (_ =? _); [|discriminate]. inv_bind_as Hma c Hc.
  injection Hma as <-.
  apply heap_ext_insert_fresh.
  - eapply heap_ext_trans; [exact Hgx|].
    eapply heap_ext_trans; apply heap_ext_app.
  - rewrite Hloc, length_app. simpl.
    apply heap_ext_length in Hgx. lia.
Qed.

Lemma td_body_w (h : heap) (ly : loc) (wts : option loc) (L : td_locals)
      (B : list Z) (b : batch) (h' : heap) :
  td_body h (Some ly) wts L B = Ok (b, h') ->
  exists xb yb w dlast,
    b = BatchXYW xb yb [("w_batch"%string, w)]
    /\ last (l_delays L) = Some dlast
    /\ hd 0%nat (shape w) = length B
    /\ (wts = None ->
        forall (i : nat) (bi : Z) (rest : list nat),
          B !! i = Some bi ->
          item w (i :: rest) = if bi <? dlast then s_zero else s_one)
    /\ (forall (lw : loc) (wa : ndarray),
          wts = Some lw -> h !! lw = Some wa ->
          forall (i : nat) (bi : Z) (rest : list nat),
            B !! i = Some bi -> 0 <= bi ->
            item w (i :: rest)
            = if bi <? dlast then s_zero
              else item wa (Z.to_nat bi :: 0%nat :: rest)).
Proof.
  unfold td_body. intros H.
  inv_bind_as H idss Hidss. inv_bind_as H gx Hgx. destruct gx as [ts h1].
  inv_bind_as H xb Hxb. apply gather_xs_ext in Hgx.
  cbn [fst snd alloc] in H.
  inv_bind_as H ya Hya. inv_bind_as H yg Hyg. inv_bind_as H yb Hyb.
  inv_bind_as H wv Hwv. destruct wv as [v h3].
  inv_bind_as H dlast Hdl. inv_bind_as H h4 Hma. inv_bind_as H w Hvg.
  inv_bind_as H wb Hwb. injection H as <- <-. simpl in *.
  unfold _standardize_sample_weights in Hwb.
  apply standardize_Ok in Hwb as [_ ->].
  destruct (mask_assign_view_get _ _ _ _ _ _ Hma Hvg)
    as (w0 & Hw0 & Hsh & Hhd & Hit).
  rewrite length_fmap in Hhd.
  apply td_weights_inv in Hwv as [Hloc Hcase].
  exists xb, yb, w, dlast. split; [reflexivity|]. split.
  { unfold py_last in Hdl. destruct (last (l_delays L)); congruence. }
  split; [rewrite Hsh; exact Hhd|]. split.
  - intros -> i bi rest Hi. rewrite Hit, (mask_lookup _ _ _ _ Hi).
    destruct (bi <? dlast); [reflexivity|].
    destruct Hcase as [(_ & n & -> & ->)|(lw & wa & wg & ? & _)];
      [|discriminate].
    rewrite view_get_fresh_whole in Hw0. injection Hw0 as <-. reflexivity.
  - intros lw wa -> Hwa i bi rest Hi Hbi.
    rewrite Hit, (mask_lookup _ _ _ _ Hi).
    destruct (bi <? dlast); [reflexivity|].
    destruct Hcase as [(? & _)|(lw' & wa' & wg & [= <-] & -> & -> & Hwa' & Hwg)];
      [discriminate|].
    rewrite view_get_fresh_col0 in Hw0.
    apply col0_inv in Hw0 as (n0 & m0 & r0 & _ & _ & Hi0).
    rewrite Hi0.
    assert (wa' = wa).
    { assert (Hx : heap_ext h (h1 ++ [yg]))
        by (eapply heap_ext_trans; [exact Hgx | apply heap_ext_app]).
      apply Hx in Hwa. congruence. }
    subst wa'.
    apply getitem_rows_inv in Hwg as (n & m & r & rows & _ & Hrows & _ & Hig).
    rewrite Hig. do 2 f_equal.
    destruct (mapM_Ok_lookup _ _ _ _ _ Hrows Hi) as (q & Hq & Hn).
    rewrite (nth_lookup_Some _ _ _ _ Hq).
    apply (norm_index_nonneg_Ok n); assumption.
Qed.

Lemma py_slice_lookup {A : Type} (l : list A) (s e : Z) (i : nat) (x : A) :
  py_slice l s e !! i = Some x -> exists j, l !! j = Some x.
Proof.
  unfold py_slice. intros H.
  apply lookup_take_Some in H as [H _]. rewrite lookup_drop in H. eauto.
Qed.

Lemma perm_py_range_lookup (ia : list Z) (N : Z) (j : nat) (x : Z) :
  Permutation ia (py_range N) -> ia !! j = Some x -> 0 <= x < N.
Proof.
  intros Hp Hj. apply list_elem_of_lookup_2 in Hj.
  rewrite Hp in Hj. apply list_elem_of_lookup_1 in Hj as [q Hq].
  apply lookup_py_range_Some in Hq as [-> Hlt]. lia.
Qed.

Lemma td_body_None (h : heap) (wts : option loc) (L : td_locals)
      (B : list Z) (b : batch) (h' : heap) :
  td_body h None wts L B = Ok (b, h') -> exists xb, b = BatchX xb.
Proof.
  unfold td_body. intros H.
  inv_bind_as H idss Hidss. inv_bind_as H gx Hgx. inv_bind_as H xb Hxb.
  injection H as <- _. eauto.
Qed.

Lemma last_py_range (n : Z) : 1 <= n -> last (py_range n) = Some (n - 1).
Proof.
  intros Hn. rewrite last_lookup.
  pose proof (length_py_range n) as Hlen.
  rewrite lookup_py_range by lia. f_equal. lia.
Qed.

(** The weight vector of a yielded batch, for any delay set. *)
Lemma td_next_w (fuel : nat) (args : td_args) (h0 : heap) (w : world)
      (st : td_state) (xb yb wb : named ndarray) (w' : world)
      (st' : td_state) :
  td_reachable args h0 st ->
  (st = TdStart -> w_heap w = h0) ->
  td_next fuel args w st = Some (Ok (BatchXYW xb yb wb, w', st')) ->
  exists L ia k be wt dlast,
    st' = TdAt L ia k
    /\ l_batches L !! k = Some be
    /\ wb = [("w_batch"%string, wt)]
    /\ last (td_delays args) = Some dlast
    /\ hd 0%nat (shape wt) = length (py_slice ia (fst be) (snd be))
    /\ (a_weights args = None ->
        forall (i : nat) (bi : Z) (rest : list nat),
          py_slice ia (fst be) (snd be) !! i = Some bi ->
          item wt (i :: rest) = if bi <? dlast then s_zero else s_one)
    /\ (forall (lw : loc) (wa : ndarray),
          a_weights args = Some lw -> w_heap w !! lw = Some wa ->
          forall (i : nat) (bi : Z) (rest : list nat),
            py_slice ia (fst be) (snd be) !! i = Some bi ->
            item wt (i :: rest)
            = if bi <? dlast then s_zero
              else item wa (Z.to_nat bi :: 0%nat :: rest)).
Proof.
  intros Hreach Hh0 Hnext.
  pose proof (td_reachable_inv _ _ _
                (td_reach_next _ _ _ _ _ _ _ _ Hreach Hh0 Hnext)) as Hinv.
  apply td_next_inv in Hnext as (L & ia & k & be & -> & Hbe & Hbody & _).
  destruct Hinv as (N0 & _ & Hperm & HD & _).
  destruct (a_y args) as [ly|];
    [|apply td_body_None in Hbody as [? ?]; discriminate].
  apply td_body_w in Hbody
    as (xb' & yb' & wt & dlast & [= -> -> ->] & Hlast & Hhd & Hnone & Hsome).
  exists L, ia, k, be, wt, dlast.
  rewrite <- HD. repeat split; try assumption.
  intros lw wa Hlw Hwa i bi rest Hi.
  apply (Hsome lw wa Hlw Hwa i bi rest Hi).
  destruct (py_slice_lookup _ _ _ _ _ Hi) as [j Hj].
  pose proof (perm_py_range_lookup _ _ _ _ Hperm Hj). lia.
Qed.






(** C5, on the claim's own input: with [delays=3], no weight array and the
    six samples in one unshuffled batch, the weights at the positions of the
    indices 0, 1, 2, 5 are 0, 0, 1, 1; index 2 is not below
    [delays[-1]] = 2 and keeps weight 1. *)
Lemma td_weights_three_counterexample :
  exists xb yb wt w' L ia,
    td_next 1 ex_args_three ex_world TdStart
    = Some (Ok (BatchXYW xb yb [("w_batch"%string, wt)], w', TdAt L ia 0))
    /\ l_batches L !! 0%nat = Some (0, 6)
    /\ py_slice ia 0 6 = [0; 1; 2; 3; 4; 5]
    /\ (fun i => item wt [i]) <$> [0; 1; 2; 5]%nat
       = [s_zero; s_zero; s_one; s_one]
    /\ s_one <> s_zero.
Proof.
  do 6 eexists. split; [vm_compute; reflexivity|].
  repeat split; try reflexivity. discriminate.
Qed.

(** C5 (amended): when no weight array is supplied and [delays=3], every
    yielded batch has weight 0 at the positions whose index is below 2 and
    weight 1 at the others; a batch whose [batch_ids] contain 0, 1, 2, 5
    has the weights 0, 0, 1, 1 at those positions. *)
Theorem td_weights_three (fuel : nat) (args : td_args) (h0 : heap)
        (w : world) (st : td_state) (xb yb wb : named ndarray) (w' : world)
        (st' : td_state) :
  a_delays args = DInt 3 ->
  a_weights args = None ->
  td_reachable args h0 st ->
  (st = TdStart -> w_heap w = h0) ->
  td_next fuel args w st = Some (Ok (BatchXYW xb yb wb, w', st')) ->
  exists L ia k be wt,
    st' = TdAt L ia k
    /\ l_batches L !! k = Some be
    /\ wb = [("w_batch"%string, wt)]
    /\ forall (i : nat) (bi : Z),
         py_slice ia (fst be) (snd be) !! i = Some bi ->
         item wt [i] = (if bi <? 2 then s_zero else s_one)
         /\ (bi = 0 \/ bi = 1 -> item wt [i] = s_zero)
         /\ (bi = 2 \/ bi = 5 -> item wt [i] = s_one).
Proof.
  intros Hd Hw Hreach Hh0 Hnext.
  destruct (td_next_w _ _ _ _ _ _ _ _ _ _ Hreach Hh0 Hnext)
    as (L & ia & k & be & wt & dlast & Hst & Hbe & Hwb & Hlast & _
        & Hnone & _).
  unfold td_delays in Hlast. rewrite Hd in Hlast.
  rewrite last_py_range in Hlast by lia. injection Hlast as <-.
  exists L, ia, k, be, wt. repeat (split; [assumption|]).
  intros i bi Hi. rewrite (Hnone Hw i bi [] Hi). simpl.
  split; [reflexivity|].
  split; intros [-> | ->]; reflexivity.
Qed.

Lemma td_weights_three_witness :
  exists xb yb wb w' st' L ia k be wt,
    td_next 1 ex_args_three ex_world TdStart
    = Some (Ok (BatchXYW xb yb wb, w', st'))
    /\ st' = TdAt L ia k
    /\ l_batches L !! k = Some be
    /\ wb = [("w_batch"%string, wt)]
    /\ forall (i : nat) (bi : Z),
         py_slice ia (fst be) (snd be) !! i = Some bi ->
         item wt [i] = (if bi <? 2 then s_zero else s_one)
         /\ (bi = 0 \/ bi = 1 -> item wt [i] = s_zero)
         /\ (bi = 2 \/ bi = 5 -> item wt [i] = s_one).
Proof.
  destruct (td_next 1 ex_args_three ex_world TdStart)
    as [[[[[xb|xb yb wb] w'] st']|e]|] eqn:Hnext;
    try (vm_compute in Hnext; discriminate).
  destruct (td_weights_three 1 ex_args_three ex_heap ex_world TdStart
              xb yb wb w' st' eq_refl eq_refl
              (td_reach_start _ _) (fun _ => eq_refl) Hnext)
    as (L & ia & k & be & wt & H).
  exists xb, yb, wb, w', st', L, ia, k, be, wt.
  split; [reflexivity | exact H].
Defined.

(** ** Effects of the generator on the store *)

Lemma td_next_ext (fuel : nat) (args : td_args) (w : world) (st : td_state)
      (b : batch) (w' : world) (st' : td_state) :
  td_next fuel args w st = Some (Ok (b, w', st')) ->
  heap_ext (w_heap w) (w_heap w').
Proof.
  intros H. apply td_next_inv in H as (L & ia & k & be & _ & _ & Hbody & _).
  exact (td_body_ext _ _ _ _ _ _ _ Hbody).
Qed.





(** ** The batches of a pass *)

Lemma py_slice_nonneg {A : Type} (l : list A) (s e : Z) :
  0 <= s <= e -> e <= Z.of_nat (length l) ->
  py_slice l s e = take (Z.to_nat (e - s)) (drop (Z.to_nat s) l).
Proof.
  intros Hs He. unfold py_slice, py_slice_bound.
  destruct (s <? 0) eqn:E1; [lia|]. destruct (e <? 0) eqn:E2; [lia|].
  rewrite !Z.min_l by lia. reflexivity.
Qed.

Lemma make_batches_Ok (size bs : Z) (ws : list window) :
  _make_batches size bs = Ok ws ->
  bs <> 0
  /\ ws = (fun i => (i * bs, Z.min size ((i + 1) * bs)))
            <$> py_range (ceil_div size bs).
Proof.
  unfold _make_batches. destruct (bs =? 0) eqn:E; [discriminate|].
  intros [= <-]. split; [lia | reflexivity].
Qed.

Lemma ceil_div_nonpos (a b : Z) : 0 <= a -> b < 0 -> ceil_div a b <= 0.
Proof.
  intros Ha Hb. unfold ceil_div.
  pose proof (Z.div_mod (- a) b ltac:(lia)) as Hdm.
  pose proof (Z.mod_neg_bound (- a) b Hb) as Hm.
  nia.
Qed.

Lemma concat_slices_prefix {A : Type} (l : list A) (N bs : Z) (m : nat) :
  0 < bs -> Z.of_nat (length l) = N ->
  Z.of_nat m <= ceil_div N bs ->
  concat ((fun be : window => py_slice l (fst be) (snd be))
            <$> ((fun i => (i * bs, Z.min N ((i + 1) * bs)))
                   <$> (Z.of_nat <$> seq 0 m)))
  = take (Z.to_nat (Z.min N (Z.of_nat m * bs))) l.
Proof.
  intros Hbs Hlen. pose proof (ceil_div_is_ceil N bs Hbs) as Hc.
  unfold is_ceil in Hc. induction m as [|m IH]; intros Hm.
  - replace (Z.to_nat (Z.min N (Z.of_nat 0 * bs))) with 0%nat by lia.
    reflexivity.
  - rewrite seq_S, !fmap_app, concat_app, IH by lia. simpl.
    rewrite app_nil_r.
    assert (Hlt : Z.of_nat m * bs < N) by nia.
    rewrite py_slice_nonneg by lia.
    rewrite (Z.min_r N (Z.of_nat m * bs)) by lia.
    rewrite take_take_drop. f_equal. lia.
Qed.

Lemma make_batches_concat {A : Type} (l : list A) (N bs : Z)
      (ws : list window) :
  0 < bs -> Z.of_nat (length l) = N ->
  _make_batches N bs = Ok ws ->
  concat ((fun be : window => py_slice l (fst be) (snd be)) <$> ws) = l.
Proof.
  intros Hbs Hlen Hws. apply make_batches_Ok in Hws as [_ ->].
  pose proof (ceil_div_is_ceil N bs Hbs) as Hc. unfold is_ceil in Hc.
  assert (H0 : 0 <= ceil_div N bs) by nia.
  unfold py_range.
  rewrite (concat_slices_prefix l N bs (Z.to_nat (ceil_div N bs)))
    by (try assumption; lia).
  apply take_ge. nia.
Qed.

Lemma py_range_NoDup (N : Z) : NoDup (py_range N).
Proof.
  unfold py_range. apply NoDup_fmap_2; [intros x y; lia | apply NoDup_seq].
Qed.

Lemma perm_py_range_length (ia : list Z) (N : Z) :
  0 <= N -> Permutation ia (py_range N) -> Z.of_nat (length ia) = N.
Proof.
  intros HN Hp. rewrite (Permutation_length Hp).
  pose proof (length_py_range N). lia.
Qed.

Lemma x0_len_nonneg (h : heap) (xs : list loc) (N : Z) :
  x0_len h xs = Ok N -> 0 <= N.
Proof.
  unfold x0_len. destruct xs as [|x0 xs]; [discriminate|].
  intros H. inv_bind_as H a Ha. apply shape0_hd in H. lia.
Qed.

Lemma td_inv_concat (args : td_args) (h0 : heap) (L : td_locals)
      (ia : list Z) (k : nat) :
  td_inv args h0 (TdAt L ia k) ->
  exists N,
    x0_len h0 (td_x args) = Ok N
    /\ Permutation ia (py_range N)
    /\ concat (pass_batch_ids L ia) = ia.
Proof.
  intros (N & HN & Hp & _ & _ & _ & Hb & [be Hbe]).
  exists N. split; [exact HN|]. split; [exact Hp|].
  pose proof (x0_len_nonneg _ _ _ HN) as HN0.
  assert (Hbs : 0 < a_batch_size args).
  { destruct (make_batches_Ok _ _ _ Hb) as [Hne Hws].
    destruct (Z_lt_le_dec 0 (a_batch_size args)) as [|Hle]; [assumption|].
    exfalso. pose proof (ceil_div_nonpos N (a_batch_size args) HN0 ltac:(lia)).
    rewrite Hws in Hbe. rewrite list_lookup_fmap in Hbe.
    destruct (py_range _ !! k) as [v|] eqn:Hv; [|discriminate].
    apply lookup_py_range_Some in Hv. lia. }
  unfold pass_batch_ids.
  apply (make_batches_concat ia N (a_batch_size args)); try assumption.
  apply perm_py_range_length; assumption.
Qed.

(** C9: every batch that [time_delay_generator] yields is assembled from
    one slice of the current index array; the slices of a pass,
    concatenated, are a permutation of [0, N) without repetition, [N] being
    the leading length of [x] when the generator started; and successive
    batches of a pass take successive slices of the same index array, which
    changes only when a new pass begins. This does not depend on the
    [shuffle] flag. *)
Theorem td_pass_permutation (fuel : nat) (args : td_args) (h0 : heap)
        (w : world) (st : td_state) (b : batch) (w' : world)
        (st' : td_state) :
  td_reachable args h0 st ->
  (st = TdStart -> w_heap w = h0) ->
  td_next fuel args w st = Some (Ok (b, w', st')) ->
  exists L ia k N batch_ids,
    st' = TdAt L ia k
    /\ x0_len h0 (td_x args) = Ok N
    /\ pass_batch_ids L ia !! k = Some batch_ids
    /\ td_body (w_heap w) (a_y args) (a_weights args) L batch_ids
       = Ok (b, w_heap w')
    /\ Permutation (concat (pass_batch_ids L ia)) (py_range N)
    /\ NoDup (concat (pass_batch_ids L ia))
    /\ (st = TdStart -> k = 0%nat)
    /\ (forall L0 ia0 k0,
          st = TdAt L0 ia0 k0 ->
          L = L0
          /\ ((k = S k0 /\ ia = ia0)
              \/ (k = 0%nat /\ S k0 = length (l_batches L0)
                  /\ ia = reshuffled args w ia0))).
Proof.
  intros Hreach Hh0 Hnext.
  pose proof (td_reachable_inv _ _ _ Hreach) as Hinv0.
  pose proof (td_reachable_inv _ _ _
                (td_reach_next _ _ _ _ _ _ _ _ Hreach Hh0 Hnext)) as Hinv.
  apply td_next_inv in Hnext as (L & ia & k & be & -> & Hbe & Hbody & Hcase).
  destruct (td_inv_concat _ _ _ _ _ Hinv) as (N & HN & Hp & Hcat).
  exists L, ia, k, N, (py_slice ia (fst be) (snd be)).
  split; [reflexivity|]. split; [exact HN|]. split.
  { unfold pass_batch_ids. rewrite list_lookup_fmap.
    exact (f_equal (fmap (fun be0 : window => py_slice ia (fst be0) (snd be0)))
                   Hbe). }
  split; [exact Hbody|]. split; [rewrite Hcat; exact Hp|]. split.
  { rewrite Hcat. rewrite Hp. apply py_range_NoDup. }
  split.
  - intros ->.
    destruct Hcase as [(ia0 & _ & _ & -> & _)|[(k0 & ? & _)|(? & ? & ? & _)]];
      [reflexivity | discriminate | discriminate].
  - intros L0 ia0 k0 ->.
    destruct Hcase as [(ia1 & ? & _)|[(k1 & [= <- <- <-] & ->)
                      |(ia1 & k1 & [= <- <- <-] & Hnone & -> & ->)]];
      [discriminate | |].
    + split; [reflexivity|]. left. split; reflexivity.
    + split; [reflexivity|]. right. split; [reflexivity|].
      split; [|reflexivity].
      destruct Hinv0 as (_ & _ & _ & _ & _ & _ & _ & Hsome).
      apply lookup_ge_None in Hnone. apply lookup_lt_is_Some in Hsome. lia.
Qed.

Lemma td_pass_permutation_witness :
  exists b w' st' L ia k N batch_ids,
    td_next 1 ex_args_weights ex_world TdStart = Some (Ok (b, w', st'))
    /\ st' = TdAt L ia k
    /\ x0_len ex_heap (td_x ex_args_weights) = Ok N
    /\ pass_batch_ids L ia !! k = Some batch_ids
    /\ td_body (w_heap ex_world) (a_y ex_args_weights)
               (a_weights ex_args_weights) L batch_ids
       = Ok (b, w_heap w')
    /\ Permutation (concat (pass_batch_ids L ia)) (py_range N)
    /\ NoDup (concat (pass_batch_ids L ia))
    /\ (TdStart = TdStart -> k = 0%nat)
    /\ (forall L0 ia0 k0,
          TdStart = TdAt L0 ia0 k0 ->
          L = L0
          /\ ((k = S k0 /\ ia = ia0)
              \/ (k = 0%nat /\ S k0 = length (l_batches L0)
                  /\ ia = reshuffled ex_args_weights ex_world ia0))).
Proof.
  destruct (td_next 1 ex_args_weights ex_world TdStart)
    as [[[[b w'] st']|e]|] eqn:Hnext; try (vm_compute in Hnext; discriminate).
  destruct (td_pass_permutation 1 ex_args_weights ex_heap ex_world TdStart
              b w' st' (td_reach_start _ _) (fun _ => eq_refl) Hnext)
    as (L & ia & k & N & ids & H).
  exists b, w', st', L, ia, k, N, ids. split; [reflexivity | exact H].
Defined.

(** ** [time_delay_generator_conv] *)











(** * Further properties of the code *)

(** ** Sizes of the overlapping windows *)



(** ** The windows of [time_delay_generator_conv] *)










(** ** The targets of a batch *)

Lemma td_body_y (h : heap) (ly : loc) (wts : option loc) (L : td_locals)
      (B : list Z) (b : batch) (h' : heap) (ya : ndarray) :
  td_body h (Some ly) wts L B = Ok (b, h') ->
  h !! ly = Some ya ->
  exists xb yg wb,
    b = BatchXYW xb [("y_batch"%string, yg)] wb
    /\ shape yg = length B :: tl (shape ya)
    /\ forall (i : nat) (bi : Z) (rest : list nat),
         B !! i = Some bi -> 0 <= bi ->
         item yg (i :: rest) = item ya (Z.to_nat bi :: rest).
Proof.
  unfold td_body. intros H Hya0.
  inv_bind_as H idss Hidss. inv_bind_as H gx Hgx. destruct gx as [ts h1].
  inv_bind_as H xb Hxb. apply gather_xs_ext in Hgx.
  cbn [fst snd alloc] in H.
  inv_bind_as H ya' Hya. inv_bind_as H yg Hyg. inv_bind_as H yb Hyb.
  inv_bind_as H wv Hwv. inv_bind_as H dlast Hdl. inv_bind_as H h4 Hma.
  inv_bind_as H w Hvg. inv_bind_as H wb Hwb. injection H as <- <-.
  apply standardize_Ok in Hyb as [_ ->].
  apply load_Ok in Hya. apply Hgx in Hya0.
  assert (ya' = ya) by congruence. subst ya'.
  apply getitem_rows_inv in Hyg as (n & m & r & rows & Hsa & Hrows & Hsg & Hig).
  exists xb, yg, wb. split; [reflexivity|]. split.
  - rewrite Hsg, Hsa. reflexivity.
  - intros i bi rest Hi Hbi. rewrite Hig. do 2 f_equal.
    destruct (mapM_Ok_lookup _ _ _ _ _ Hrows Hi) as (q & Hq & Hn).
    rewrite (nth_lookup_Some _ _ _ _ Hq).
    apply (norm_index_nonneg_Ok n); assumption.
Qed.

(** X4: a value yielded by [time_delay_generator] is the [x_batch]
    collection alone exactly when [y] is [None]. Otherwise its second
    component is one array named [y_batch], of shape
    [(|B|, trailing dims of y)], whose row [i] is row [batch_ids[i]] of [y]:
    targets are gathered at the batch indices themselves, without delays
    and without clamping. *)
Theorem td_next_y_batch (fuel : nat) (args : td_args) (h0 : heap)
        (w : world) (st : td_state) (b : batch) (w' : world)
        (st' : td_state) :
  td_reachable args h0 st ->
  (st = TdStart -> w_heap w = h0) ->
  td_next fuel args w st = Some (Ok (b, w', st')) ->
  exists L ia k be,
    st' = TdAt L ia k
    /\ l_batches L !! k = Some be
    /\ (a_y args = None -> exists xb, b = BatchX xb)
    /\ forall (ly : loc) (ya : ndarray),
         a_y args = Some ly -> w_heap w !! ly = Some ya ->
         exists xb yg wb,
           b = BatchXYW xb [("y_batch"%string, yg)] wb
           /\ shape yg = length (py_slice ia (fst be) (snd be))
                         :: tl (shape ya)
           /\ forall (i : nat) (bi : Z) (rest : list nat),
                py_slice ia (fst be) (snd be) !! i = Some bi ->
                item yg (i :: rest) = item ya (Z.to_nat bi :: rest).
Proof.
  intros Hreach Hh0 Hnext.
  pose proof (td_reachable_inv _ _ _
                (td_reach_next _ _ _ _ _ _ _ _ Hreach Hh0 Hnext)) as Hinv.
  apply td_next_inv in Hnext as (L & ia & k & be & -> & Hbe & Hbody & _).
  destruct Hinv as (N0 & _ & Hperm & _).
  exists L, ia, k, be. split; [reflexivity|]. split; [exact Hbe|]. split.
  - intros Hy. rewrite Hy in Hbody. exact (td_body_None _ _ _ _ _ _ Hbody).
  - intros ly ya Hy Hya. rewrite Hy in Hbody.
    destruct (td_body_y _ _ _ _ _ _ _ _ Hbody Hya)
      as (xb & yg & wb & -> & Hsh & Hit).
    exists xb, yg, wb. split; [reflexivity|]. split; [exact Hsh|].
    intros i bi rest Hi. apply (Hit i bi rest Hi).
    destruct (py_slice_lookup _ _ _ _ _ Hi) as [j Hj].
    pose proof (perm_py_range_lookup _ _ _ _ Hperm Hj). lia.
Qed.

Lemma td_next_y_batch_witness :
  exists b w' st' L ia k be,
    td_next 1 ex_args_weights ex_world TdStart = Some (Ok (b, w', st'))
    /\ st' = TdAt L ia k
    /\ l_batches L !! k = Some be
    /\ (a_y ex_args_weights = None -> exists xb, b = BatchX xb)
    /\ forall (ly : loc) (ya : ndarray),
         a_y ex_args_weights = Some ly -> w_heap ex_world !! ly = Some ya ->
         exists xb yg wb,
           b = BatchXYW xb [("y_batch"%string, yg)] wb
           /\ shape yg = length (py_slice ia (fst be) (snd be))
                         :: tl (shape ya)
           /\ forall (i : nat) (bi : Z) (rest : list nat),
                py_slice ia (fst be) (snd be) !! i = Some bi ->
                item yg (i :: rest) = item ya (Z.to_nat bi :: rest).
Proof.
  destruct (td_next 1 ex_args_weights ex_world TdStart)
    as [[[[b w'] st']|e]|] eqn:Hnext; try (vm_compute in Hnext; discriminate).
  destruct (td_next_y_batch 1 ex_args_weights ex_heap ex_world TdStart
              b w' st' (td_reach_start _ _) (fun _ => eq_refl) Hnext)
    as (L & ia & k & be & H1 & H).
  exists b, w', st', L, ia, k, be. split; [reflexivity|].
  split; [exact H1 | exact H].
Defined.

(** ** The batches of [time_delay_generator] *)

Lemma td_inv_batch (args : td_args) (h0 : heap) (L : td_locals)
      (ia : list Z) (k : nat) :
  td_inv args h0 (TdAt L ia k) ->
  exists N,
    x0_len h0 (td_x args) = Ok N
    /\ Permutation ia (py_range N)
    /\ 0 < a_batch_size args
    /\ Z.of_nat k * a_batch_size args < N
    /\ l_batches L !! k
       = Some (Z.of_nat k * a_batch_size args,
               Z.min N ((Z.of_nat k + 1) * a_batch_size args))
    /\ Z.of_nat (length ia) = N
    /\ Z.of_nat (length (l_batches L)) = ceil_div N (a_batch_size args).
Proof.
  intros (N & HN & Hp & _ & _ & _ & Hb & [be Hbe]).
  exists N. split; [exact HN|]. split; [exact Hp|].
  pose proof (x0_len_nonneg _ _ _ HN) as HN0.
  destruct (make_batches_Ok _ _ _ Hb) as [Hne Hws].
  rewrite Hws in Hbe |- *. rewrite list_lookup_fmap in Hbe |- *.
  destruct (py_range _ !! k) as [v|] eqn:Hv; [|discriminate].
  apply lookup_py_range_Some in Hv as [-> Hk].
  assert (Hbs : 0 < a_batch_size args).
  { destruct (Z_lt_le_dec 0 (a_batch_size args)) as [|Hle]; [assumption|].
    pose proof (ceil_div_nonpos N (a_batch_size args) HN0 ltac:(lia)). lia. }
  pose proof (ceil_div_is_ceil N (a_batch_size args) Hbs) as Hc.
  unfold is_ceil in Hc.
  split; [exact Hbs|]. split; [nia|]. split; [reflexivity|].
  split; [apply perm_py_range_length; assumption|].
  rewrite length_fmap. pose proof (length_py_range (ceil_div N (a_batch_size args))).
  lia.
Qed.

(** X5: the batches of a pass of [time_delay_generator] are
    [ceil(N / batch_size)] in number, [N] being the leading length of [x]
    when the generator started; batch [k] holds
    [min(batch_size, N - k*batch_size)] sample indices, so every batch is
    full except possibly the last of the pass, and none is empty; every
    index of a batch is a valid row of [0, N). *)
Theorem td_batch_sizes (fuel : nat) (args : td_args) (h0 : heap)
        (w : world) (st : td_state) (b : batch) (w' : world)
        (st' : td_state) :
  td_reachable args h0 st ->
  (st = TdStart -> w_heap w = h0) ->
  td_next fuel args w st = Some (Ok (b, w', st')) ->
  exists L ia k N batch_ids,
    st' = TdAt L ia k
    /\ x0_len h0 (td_x args) = Ok N
    /\ pass_batch_ids L ia !! k = Some batch_ids
    /\ td_body (w_heap w) (a_y args) (a_weights args) L batch_ids
       = Ok (b, w_heap w')
    /\ Z.of_nat (length (l_batches L)) = ceil_div N (a_batch_size args)
    /\ Z.of_nat (length batch_ids)
       = Z.min (a_batch_size args) (N - Z.of_nat k * a_batch_size args)
    /\ (0 < length batch_ids)%nat
    /\ Forall (fun v => 0 <= v < N) batch_ids.
Proof.
  intros Hreach Hh0 Hnext.
  pose proof (td_reachable_inv _ _ _
                (td_reach_next _ _ _ _ _ _ _ _ Hreach Hh0 Hnext)) as Hinv.
  apply td_next_inv in Hnext as (L & ia & k & be & -> & Hbe & Hbody & _).
  destruct (td_inv_batch _ _ _ _ _ Hinv)
    as (N & HN & Hp & Hbs & Hk & Hbk & Hlen & Hnb).
  assert (be = (Z.of_nat k * a_batch_size args,
                Z.min N ((Z.of_nat k + 1) * a_batch_size args)))
    by congruence.
  subst be. cbn [fst snd] in Hbody.
  eexists L, ia, k, N, _.
  split; [reflexivity|]. split; [exact HN|]. split.
  { unfold pass_batch_ids. rewrite list_lookup_fmap.
    exact (f_equal (fmap (fun be0 : window => py_slice ia (fst be0) (snd be0)))
                   Hbk). }
  cbn [fst snd]. split; [exact Hbody|]. split; [exact Hnb|].
  assert (Hl : Z.of_nat (length (py_slice ia (Z.of_nat k * a_batch_size args)
                       (Z.min N ((Z.of_nat k + 1) * a_batch_size args))))
               = Z.min (a_batch_size args)
                       (N - Z.of_nat k * a_batch_size args)).
  { rewrite py_slice_nonneg by lia. rewrite length_take, length_drop. lia. }
  split; [exact Hl|]. split; [lia|].
  apply Forall_lookup. intros i v Hi.
  destruct (py_slice_lookup _ _ _ _ _ Hi) as [j Hj].
  exact (perm_py_range_lookup _ _ _ _ Hp Hj).
Qed.

Lemma td_batch_sizes_witness :
  exists b w' st' L ia k N batch_ids,
    td_next 1 ex_args_weights ex_world TdStart = Some (Ok (b, w', st'))
    /\ st' = TdAt L ia k
    /\ x0_len ex_heap (td_x ex_args_weights) = Ok N
    /\ pass_batch_ids L ia !! k = Some batch_ids
    /\ td_body (w_heap ex_world) (a_y ex_args_weights)
               (a_weights ex_args_weights) L batch_ids
       = Ok (b, w_heap w')
    /\ Z.of_nat (length (l_batches L))
       = ceil_div N (a_batch_size ex_args_weights)
    /\ Z.of_nat (length batch_ids)
       = Z.min (a_batch_size ex_args_weights)
               (N - Z.of_nat k * a_batch_size ex_args_weights)
    /\ (0 < length batch_ids)%nat
    /\ Forall (fun v => 0 <= v < N) batch_ids.
Proof.
  destruct (td_next 1 ex_args_weights ex_world TdStart)
    as [[[[b w'] st']|e]|] eqn:Hnext; try (vm_compute in Hnext; discriminate).
  destruct (td_batch_sizes 1 ex_args_weights ex_heap ex_world TdStart
              b w' st' (td_reach_start _ _) (fun _ => eq_refl) Hnext)
    as (L & ia & k & N & ids & H).
  exists b, w', st', L, ia, k, N, ids. split; [reflexivity | exact H].
Defined.

Lemma td_reachable_unshuffled (args : td_args) (h0 : heap) (st : td_state) :
  a_shuffle args = false ->
  td_reachable args h0 st ->
  forall L ia k, st = TdAt L ia k ->
                 exists N, x0_len h0 (td_x args) = Ok N /\ ia = py_range N.
Proof.
  intros Hsh.
  induction 1 as [|fuel w st b w' st' Hreach IH Hh0 Hnext];
    intros L ia k E; [discriminate|].
  apply td_next_inv in Hnext
    as (L1 & ia1 & k1 & be & -> & Hbe & _ & Hcase).
  injection E as -> -> ->.
  unfold reshuffled in Hcase. rewrite Hsh in Hcase.
  destruct Hcase as [(ia0 & -> & Hinit & _ & ->)
                    |[(k0 & -> & _)|(ia0 & k0 & -> & _ & _ & ->)]].
  - rewrite (Hh0 eq_refl) in Hinit.
    apply td_init_inv in Hinit as (N & HN & -> & _). eauto.
  - exact (IH _ _ _ eq_refl).
  - exact (IH _ _ _ eq_refl).
Qed.

(** X6: with [shuffle=False] the index array stays [0, 1, ..., N-1]:
    batch [k] of every pass holds the consecutive sample indices
    [k*batch_size, k*batch_size + 1, ...] in ascending order, so the
    generator walks through the samples in their original order. *)
Theorem td_unshuffled_order (fuel : nat) (args : td_args) (h0 : heap)
        (w : world) (st : td_state) (b : batch) (w' : world)
        (st' : td_state) :
  a_shuffle args = false ->
  td_reachable args h0 st ->
  (st = TdStart -> w_heap w = h0) ->
  td_next fuel args w st = Some (Ok (b, w', st')) ->
  exists L k N batch_ids,
    st' = TdAt L (py_range N) k
    /\ x0_len h0 (td_x args) = Ok N
    /\ pass_batch_ids L (py_range N) !! k = Some batch_ids
    /\ td_body (w_heap w) (a_y args) (a_weights args) L batch_ids
       = Ok (b, w_heap w')
    /\ forall i : nat,
         (i < length batch_ids)%nat ->
         batch_ids !! i
         = Some (Z.of_nat k * a_batch_size args + Z.of_nat i).
Proof.
  intros Hsh Hreach Hh0 Hnext.
  pose proof (td_reach_next _ _ _ _ _ _ _ _ Hreach Hh0 Hnext) as Hreach'.
  pose proof (td_reachable_inv _ _ _ Hreach') as Hinv.
  apply td_next_inv in Hnext as (L & ia & k & be & -> & Hbe & Hbody & _).
  destruct (td_reachable_unshuffled _ _ _ Hsh Hreach' _ _ _ eq_refl)
    as (N & HN & ->).
  destruct (td_inv_batch _ _ _ _ _ Hinv)
    as (N' & HN' & _ & Hbs & Hk & Hbk & _ & _).
  assert (N' = N) by congruence. subst N'.
  pose proof (length_py_range N) as Hlen.
  pose proof (x0_len_nonneg _ _ _ HN) as HN0.
  assert (be = (Z.of_nat k * a_batch_size args,
                Z.min N ((Z.of_nat k + 1) * a_batch_size args)))
    by congruence.
  subst be. cbn [fst snd] in Hbody.
  eexists L, k, N, _.
  split; [reflexivity|]. split; [exact HN|]. split.
  { unfold pass_batch_ids. rewrite list_lookup_fmap.
    exact (f_equal (fmap (fun be0 : window =>
                            py_slice (py_range N) (fst be0) (snd be0)))
                   Hbk). }
  cbn [fst snd]. split; [exact Hbody|].
  intros i. rewrite py_slice_nonneg by lia.
  rewrite length_take, length_drop. intros Hi.
  rewrite lookup_take_lt by lia. rewrite lookup_drop.
  rewrite lookup_py_range by lia. f_equal. nia.
Qed.

Lemma td_unshuffled_order_witness :
  exists b w' st' L k N batch_ids,
    td_next 1 ex_args_three ex_world TdStart = Some (Ok (b, w', st'))
    /\ st' = TdAt L (py_range N) k
    /\ x0_len ex_heap (td_x ex_args_three) = Ok N
    /\ pass_batch_ids L (py_range N) !! k = Some batch_ids
    /\ td_body (w_heap ex_world) (a_y ex_args_three)
               (a_weights ex_args_three) L batch_ids
       = Ok (b, w_heap w')
    /\ forall i : nat,
         (i < length batch_ids)%nat ->
         batch_ids !! i
         = Some (Z.of_nat k * a_batch_size ex_args_three + Z.of_nat i).
Proof.
  destruct (td_next 1 ex_args_three ex_world TdStart)
    as [[[[b w'] st']|e]|] eqn:Hnext; try (vm_compute in Hnext; discriminate).
  destruct (td_unshuffled_order 1 ex_args_three ex_heap ex_world TdStart
              b w' st' eq_refl (td_reach_start _ _) (fun _ => eq_refl) Hnext)
    as (L & k & N & ids & H).
  exists b, w', st', L, k, N, ids. split; [reflexivity | exact H].
Defined.

(** ** What a yield of [time_delay_generator] requires *)

Lemma gather_xs_ndim (idss : list (list Z)) (xts : list (loc * list nat)) :
  forall (h : heap) (ts : list ndarray) (h' : heap),
    gather_xs h xts idss = Ok (ts, h') ->
    (xts <> [] -> idss <> [])
    /\ forall (k : nat) (xx : loc) (tl : list nat) (a : ndarray),
         xts !! k = Some (xx, tl) -> h !! xx = Some a ->
         (2 <= ndim a)%nat.
Proof.
  induction xts as [|[xx0 tl0] xts IH]; intros h ts h' H; simpl in H.
  - split; [congruence|]. intros k xx tl a Hk. destruct k; discriminate.
  - inv_bind_as H a0 Ha0. inv_bind_as H g Hg. inv_bind_as H t Ht.
    inv_bind_as H r Hr. apply load_Ok in Ha0.
    destruct (getitem_rows2_inv _ _ _ Hg)
      as (n & m & rest & ids0 & idss' & rows & Hsa & Hids & _).
    split; [intros _; congruence|].
    intros [|k] xx tl a Hk Ha; simpl in Hk.
    + injection Hk as <- <-. assert (a = a0) by congruence. subst a.
      unfold ndim. rewrite Hsa. simpl. lia.
    + destruct r as [ts' h'']. apply IH in Hr as [_ Hr].
      apply (Hr k xx tl a Hk). apply heap_ext_alloc. exact Ha.
Qed.

Lemma td_weights_cols (h : heap) (lw : loc) (xb : named ndarray)
      (B : list Z) (v : view) (h3 : heap) (wa : ndarray) :
  td_weights h (Some lw) xb B = Ok (v, h3) ->
  h !! lw = Some wa ->
  exists n m rest, shape wa = n :: S m :: rest.
Proof.
  unfold td_weights. intros H Hwa.
  inv_bind_as H wa' Hwa'. inv_bind_as H wg Hwg. inv_bind_as H c Hc.
  apply load_Ok in Hwa'. assert (wa' = wa) by congruence. subst wa'.
  apply getitem_rows_inv in Hwg as (n & m & rest & rows & Hsa & _ & Hsg & _).
  unfold col0 in Hc. rewrite Hsg in Hc.
  destruct m as [|m]; [discriminate|]. eauto.
Qed.

(** X7: [time_delay_generator] yields a batch only for well-formed input:
    whenever a [next] yields, the delay set is not empty, every source array
    has at least two axes, so does [y] when given, and a weight array given
    along with [y] has at least two axes and at least one column. For
    [delays=0], an empty delay list or a 1-D [x], [y] or [weights], no
    batch is ever produced. *)
Theorem td_yield_requires (fuel : nat) (args : td_args) (h0 : heap)
        (w : world) (st : td_state) (b : batch) (w' : world)
        (st' : td_state) :
  td_reachable args h0 st ->
  (st = TdStart -> w_heap w = h0) ->
  td_next fuel args w st = Some (Ok (b, w', st')) ->
  td_delays args <> []
  /\ td_x args <> []
  /\ (forall (k : nat) (xx : loc) (a : ndarray),
        td_x args !! k = Some xx -> w_heap w !! xx = Some a ->
        (2 <= ndim a)%nat)
  /\ (forall (ly : loc) (ya : ndarray),
        a_y args = Some ly -> w_heap w !! ly = Some ya ->
        (2 <= ndim ya)%nat)
  /\ (forall (ly lw : loc) (wa : ndarray),
        a_y args = Some ly -> a_weights args = Some lw ->
        w_heap w !! lw = Some wa ->
        exists n m rest, shape wa = n :: S m :: rest).
Proof.
  intros Hreach Hh0 Hnext.
  pose proof (td_reachable_inv _ _ _
                (td_reach_next _ _ _ _ _ _ _ _ Hreach Hh0 Hnext)) as Hinv.
  apply td_next_inv in Hnext as (L & ia & k & be & -> & Hbe & Hbody & _).
  destruct Hinv as (N0 & HN0 & _ & HD & Hx & Ht & _).
  assert (Hxs : td_x args <> []).
  { intros E. rewrite E in HN0. discriminate. }
  assert (Hlt : length (l_tlists L) = length (td_x args)).
  { unfold td_tlists in Ht. exact (mapM_Ok_length _ _ _ Ht). }
  unfold td_body in Hbody.
  inv_bind_as Hbody idss Hidss. inv_bind_as Hbody gx Hgx.
  destruct gx as [ts h1]. inv_bind_as Hbody xb Hxb.
  pose proof (gather_xs_ext _ _ _ _ _ Hgx) as Hext.
  destruct (gather_xs_ndim _ _ _ _ _ Hgx) as [Hne Hnd].
  cbn [fst snd alloc] in Hbody. rewrite Hx in *.
  split.
  { intros E. rewrite <- HD in E. rewrite E in Hidss. simpl in Hidss.
    injection Hidss as <-. apply Hne; [|reflexivity].
    destruct (td_x args); [congruence|].
    destruct (l_tlists L); [discriminate|]. discriminate. }
  split; [exact Hxs|]. split.
  { intros q xx a Hq Ha.
    destruct (lookup_lt_is_Some_2 (l_tlists L) q) as [tl Htl].
    { rewrite Hlt. exact (lookup_lt_Some _ _ _ Hq). }
    apply (Hnd q xx tl a); [|exact Ha].
    apply lookup_zip_with_Some. eauto 6. }
  split.
  - intros ly ya Hy Hya. rewrite Hy in Hbody.
    inv_bind_as Hbody ya' Hya'. inv_bind_as Hbody yg Hyg.
    apply load_Ok in Hya'. apply Hext in Hya.
    assert (ya' = ya) by congruence. subst ya'.
    apply getitem_rows_inv in Hyg as (n & m & r & rows & Hsa & _).
    unfold ndim. rewrite Hsa. simpl. lia.
  - intros ly lw wa Hy Hw Hwa. rewrite Hy, Hw in Hbody.
    inv_bind_as Hbody ya' Hya'. inv_bind_as Hbody yg Hyg.
    inv_bind_as Hbody yb Hyb. inv_bind_as Hbody wv Hwv.
    destruct wv as [v h3].
    apply (td_weights_cols _ _ _ _ _ _ wa Hwv).
    apply heap_ext_app. apply Hext. exact Hwa.
Qed.

Lemma td_yield_requires_witness :
  td_delays ex_args_weights <> []
  /\ td_x ex_args_weights <> []
  /\ (forall (k : nat) (xx : loc) (a : ndarray),
        td_x ex_args_weights !! k = Some xx ->
        w_heap ex_world !! xx = Some a ->
        (2 <= ndim a)%nat)
  /\ (forall (ly : loc) (ya : ndarray),
        a_y ex_args_weights = Some ly -> w_heap ex_world !! ly = Some ya ->
        (2 <= ndim ya)%nat)
  /\ (forall (ly lw : loc) (wa : ndarray),
        a_y ex_args_weights = Some ly -> a_weights ex_args_weights = Some lw ->
        w_heap ex_world !! lw = Some wa ->
        exists n m rest, shape wa = n :: S m :: rest).
Proof.
  destruct (td_next 1 ex_args_weights ex_world TdStart)
    as [[[[b w'] st']|e]|] eqn:Hnext; try (vm_compute in Hnext; discriminate).
  exact (td_yield_requires 1 ex_args_weights ex_heap ex_world TdStart
           b w' st' (td_reach_start _ _) (fun _ => eq_refl) Hnext).
Defined.

(** ** Inputs on which [time_delay_generator] never answers *)

Lemma td_while_empty (fuel : nat) (args : td_args) (L : td_locals) :
  l_batches L = [] ->
  forall (w : world) (ia : list Z), td_while fuel args w L ia = None.
Proof.
  intros E. induction fuel as [|fuel IH]; intros w ia; simpl;
    [reflexivity|].
  rewrite E. apply IH.
Qed.

Lemma make_batches_empty (N bs : Z) :
  0 <= N -> bs <> 0 -> (N = 0 \/ bs < 0) -> _make_batches N bs = Ok [].
Proof.
  intros HN Hbs Hcase. unfold _make_batches.
  destruct (bs =? 0) eqn:E; [lia|]. unfold py_range.
  replace (Z.to_nat (ceil_div N bs)) with 0%nat; [reflexivity|].
  destruct Hcase as [-> | Hneg].
  - unfold ceil_div. simpl. rewrite Z.div_0_l by exact Hbs. reflexivity.
  - pose proof (ceil_div_nonpos N bs HN Hneg). lia.
Qed.

(** X8: when the source arrays can be read and the first one has no rows,
    or [batch_size] is negative, the list of batches is empty: the first
    [next] of [time_delay_generator] spins in [while 1] and never returns,
    neither a batch nor an exception. *)
Theorem td_hangs (args : td_args) (w : world) (N : Z)
        (tlists : list (list nat)) :
  x0_len (w_heap w) (td_x args) = Ok N ->
  td_tlists (w_heap w) (td_x args) = Ok tlists ->
  a_batch_size args <> 0 ->
  N = 0 \/ a_batch_size args < 0 ->
  forall fuel : nat, td_next fuel args w TdStart = None.
Proof.
  intros HN Ht Hbs Hcase fuel. unfold td_next, td_init.
  rewrite HN, Ht. simpl.
  rewrite (make_batches_empty N _ (x0_len_nonneg _ _ _ HN) Hbs Hcase). simpl.
  apply td_while_empty. reflexivity.
Qed.

Lemma td_hangs_witness :
  td_next 5 (mk_td_args (XArray 0%nat) None (DInt 2) 4 None true)
          {| w_heap := ex_heap_empty; w_rng := ex_rng |} TdStart
  = None.
Proof.
  apply (td_hangs (mk_td_args (XArray 0%nat) None (DInt 2) 4 None true)
           {| w_heap := ex_heap_empty; w_rng := ex_rng |} 0
           [[1; 0; 2]%nat]).
  - reflexivity.
  - reflexivity.
  - discriminate.
  - left. reflexivity.
Defined.

(** ** Progress of [time_delay_generator] *)

Lemma td_wf_ext (args : td_args) (h h' : heap) (N : Z) :
  heap_ext h h' -> td_wf args h N -> td_wf args h' N.
Proof.
  intros Hext (HN & Hx0 & HD & Hbs & Hx & Hy & Hw).
  split; [exact HN|]. split.
  { unfold x0_len in *. destruct (td_x args) as [|x0 xs]; [discriminate|].
    inv_bind_as Hx0 a Ha. apply load_Ok in Ha. apply Hext in Ha.
    apply load_Ok in Ha. rewrite Ha. exact Hx0. }
  split; [exact HD|]. split; [exact Hbs|]. split; [|split].
  - intros k xx Hk. destruct (Hx k xx Hk) as (a & n & m & r & Ha & Hs & Hn).
    exists a, n, m, r. split; [apply Hext, Ha | split; assumption].
  - intros ly Hl. destruct (Hy ly Hl) as (a & n & m & r & Ha & Hs & Hn).
    exists a, n, m, r. split; [apply Hext, Ha | split; assumption].
  - intros lw Hl. destruct (Hw lw Hl) as (a & n & m & r & Ha & Hs & Hn).
    exists a, n, m, r. split; [apply Hext, Ha | split; assumption].
Qed.

Lemma getitem_rows2_in_range (a : ndarray) (n m : nat) (rest : list nat)
      (ids0 : list Z) (idss' : list (list Z)) :
  shape a = n :: m :: rest ->
  Forall (fun ids => length ids = length ids0) (ids0 :: idss') ->
  Forall (Forall (fun v => 0 <= v < Z.of_nat n)) (ids0 :: idss') ->
  exists g,
    getitem_rows2 a (ids0 :: idss') = Ok g
    /\ shape g = length (ids0 :: idss') :: length ids0 :: m :: rest.
Proof.
  intros Hs Hrect Hin. unfold getitem_rows2. rewrite Hs.
  replace (forallb (fun ids => (length ids =? length ids0)%nat)
                   (ids0 :: idss')) with true.
  - rewrite (mapM_Ok_fmap _ (fmap Z.to_nat)).
    + simpl. eexists. split; reflexivity.
    + eapply Forall_impl; [exact Hin|]. intros ids Hids. simpl.
      apply mapM_norm_index_in_range, Hids.
  - symmetry. apply forallb_forall. intros ids Hids.
    apply Nat.eqb_eq. rewrite Forall_forall in Hrect.
    apply Hrect. apply list_elem_of_In. exact Hids.
Qed.

Lemma delay_idss_wf (N : Z) (n : nat) (B D : list Z) :
  1 <= N -> N <= Z.of_nat n ->
  Forall (fun ids => length ids = length B)
         ((fun d => delay_ids N d B) <$> D)
  /\ Forall (Forall (fun v => 0 <= v < Z.of_nat n))
            ((fun d => delay_ids N d B) <$> D).
Proof.
  intros HN Hn. split; rewrite Forall_fmap; apply Forall_forall;
    intros d _; unfold compose, delay_ids.
  - apply length_fmap.
  - rewrite Forall_fmap. apply Forall_forall. intros b _.
    unfold compose. lia.
Qed.

Lemma gather_xs_Ok (N : Z) (B D : list Z) (xts : list (loc * list nat)) :
  1 <= N -> D <> [] ->
  forall h : heap,
    (forall (k : nat) (xx : loc) (tl : list nat),
        xts !! k = Some (xx, tl) ->
        exists a n m rest,
          h !! xx = Some a /\ shape a = n :: m :: rest /\ N <= Z.of_nat n
          /\ tl = (1 :: 0 :: seq 2 (ndim a - 1))%nat) ->
    exists ts h',
      gather_xs h xts ((fun d => delay_ids N d B) <$> D) = Ok (ts, h')
      /\ length ts = length xts
      /\ Forall (fun t => exists r, shape t = length B :: r) ts.
Proof.
  intros HN HD. induction xts as [|[xx0 tl0] xts IH]; intros h Hx.
  - exists [], h. repeat split. constructor.
  - destruct (Hx 0%nat xx0 tl0 eq_refl) as (a & n & m & rest & Ha & Hs & Hn & ->).
    destruct D as [|d0 D']; [congruence|].
    destruct (delay_idss_wf N n B (d0 :: D') HN Hn) as [Hrect Hin].
    rewrite fmap_cons in Hrect, Hin.
    assert (Hl0 : length (delay_ids N d0 B) = length B)
      by apply length_fmap.
    rewrite <- Hl0 in Hrect.
    destruct (getitem_rows2_in_range a n m rest _ _ Hs Hrect Hin)
      as (g & Hg & Hsg).
    assert (Hnd : (ndim a - 1)%nat = length (m :: rest)).
    { unfold ndim. rewrite Hs. simpl. lia. }
    destruct (transpose_tlist g _ _ (m :: rest) Hsg) as (t & Ht & Hst & _).
    destruct (IH (h ++ [g])) as (ts & h' & Hts & Hlen & Hall).
    { intros k xx tl Hk.
      destruct (Hx (S k) xx tl Hk) as (a' & n' & m' & r' & Ha' & Hr').
      exists a', n', m', r'. split; [apply heap_ext_app, Ha' | exact Hr']. }
    change (delay_ids N d0 B :: ((fun d => delay_ids N d B) <$> D'))
      with ((fun d => delay_ids N d B) <$> (d0 :: D')) in Hg.
    exists (t :: ts), h'. cbn [gather_xs].
    apply load_Ok in Ha. rewrite Ha. cbn [rbind].
    rewrite Hg. cbn [rbind].
    rewrite Hnd, Ht. cbn [rbind alloc fst snd].
    rewrite Hts. cbn [rbind fst snd].
    split; [reflexivity|]. split; [simpl; f_equal; exact Hlen|].
    constructor; [|exact Hall].
    rewrite Hst, Hl0. eauto.
Qed.

Lemma mask_assign_Ok (h : heap) (v : view) (mask : list bool) (x : scalar)
      (w0 : ndarray) (r : list nat) :
  view_get h v = Ok w0 ->
  shape w0 = length mask :: r ->
  exists h' w,
    mask_assign h v mask x = Ok h' /\ view_get h' v = Ok w.
Proof.
  intros Hv Hs. unfold mask_assign. rewrite Hv. cbn [rbind].
  unfold shape0. rewrite Hs. cbn [rbind]. rewrite Z.eqb_refl.
  destruct v as [c|c]; simpl in Hv |- *.
  - rewrite Hv. cbn [rbind]. apply load_Ok in Hv.
    pose proof (lookup_lt_Some _ _ _ Hv) as Hlt.
    eexists _, _. split; [reflexivity|].
    apply load_Ok. apply list_lookup_insert_eq. exact Hlt.
  - inv_bind_as Hv a Ha. rewrite Ha. cbn [rbind]. apply load_Ok in Ha.
    pose proof (lookup_lt_Some _ _ _ Ha) as Hlt.
    unfold col0 in Hv.
    destruct (shape a) as [|n [|m rest]] eqn:Hsa; try discriminate.
    destruct (m =? 0)%nat eqn:Em; [discriminate|].
    eexists _, _. split; [reflexivity|].
    replace (load (<[c:=set_where (Col0 c) mask x a]> h) c)
      with (Ok (set_where (Col0 c) mask x a))
      by (symmetry; apply load_Ok, list_lookup_insert_eq, Hlt).
    cbn [rbind]. unfold col0. cbn [set_where shape]. rewrite Hsa, Em.
    reflexivity.
Qed.

Lemma td_weights_Ok (args : td_args) (h : heap) (N : Z)
      (xb : named ndarray) (B : list Z) :
  td_wf args h N ->
  Forall (fun v => 0 <= v < N) B ->
  (exists nm t r xb', xb = (nm, t) :: xb' /\ shape t = length B :: r) ->
  exists v h3 w0 r,
    td_weights h (a_weights args) xb B = Ok (v, h3)
    /\ view_get h3 v = Ok w0
    /\ shape w0 = length B :: r.
Proof.
  intros (_ & _ & _ & _ & _ & _ & Hw) HB (nm & t & r & xb' & -> & Hst).
  unfold td_weights. destruct (a_weights args) as [lw|].
  - destruct (Hw lw eq_refl) as (wa & n & m & rest & Hwa & Hs & Hn).
    assert (HB' : Forall (fun v => 0 <= v < Z.of_nat n) B).
    { eapply Forall_impl; [exact HB|]. intros v Hv. simpl in *. lia. }
    destruct (getitem_rows_in_range wa n (S m) rest B Hs HB')
      as (wg & Hwg & Hsg & _).
    apply load_Ok in Hwa. rewrite Hwa. cbn [rbind]. rewrite Hwg. cbn [rbind].
    assert (Hc : exists c, col0 wg = Ok c /\ shape c = length B :: rest).
    { unfold col0. rewrite Hsg. simpl. eexists. split; reflexivity. }
    destruct Hc as (c & Hc & Hsc). rewrite Hc. cbn [rbind alloc fst snd].
    exists (Col0 (length h)), (h ++ [wg]), c, rest.
    split; [reflexivity|]. split; [|exact Hsc].
    rewrite view_get_fresh_col0. exact Hc.
  - unfold shape0. rewrite Hst. cbn [rbind alloc fst snd].
    eexists _, _, _, _. split; [reflexivity|].
    split; [apply view_get_fresh_whole|].
    cbn [np_ones shape]. rewrite Nat2Z.id. reflexivity.
Qed.

Lemma py_last_Ok (D : list Z) : D <> [] -> exists d, py_last D = Ok d.
Proof.
  intros HD. unfold py_last. rewrite last_lookup.
  destruct (D !! Init.Nat.pred (length D)) as [d|] eqn:E; [eauto|].
  apply lookup_ge_None in E. destruct D; [congruence | simpl in E; lia].
Qed.

Lemma td_tlists_ext (h h' : heap) (xs : list loc) (tls : list (list nat)) :
  heap_ext h h' -> td_tlists h xs = Ok tls -> td_tlists h' xs = Ok tls.
Proof.
  intros Hext. unfold td_tlists. revert tls.
  induction xs as [|xx xs IH]; intros tls H; simpl in *; [exact H|].
  inv_bind_as H tl Htl. inv_bind_as H tls' Htls. injection H as <-.
  inv_bind_as Htl a Ha. injection Htl as <-.
  apply load_Ok in Ha. apply Hext in Ha. apply load_Ok in Ha.
  rewrite Ha. cbn [rbind]. rewrite (IH _ Htls). reflexivity.
Qed.

Lemma td_tlists_Ok (h : heap) (xs : list loc) :
  (forall (k : nat) (xx : loc), xs !! k = Some xx -> is_Some (h !! xx)) ->
  exists tls, td_tlists h xs = Ok tls.
Proof.
  unfold td_tlists. induction xs as [|xx xs IH]; intros Hx; simpl.
  - eauto.
  - destruct (Hx 0%nat xx eq_refl) as [a Ha]. apply load_Ok in Ha.
    rewrite Ha. cbn [rbind].
    destruct IH as [tls Htls]; [intros k x Hk; exact (Hx (S k) x Hk)|].
    rewrite Htls. cbn [rbind]. eauto.
Qed.

Lemma td_body_Ok (args : td_args) (h : heap) (N : Z) (L : td_locals)
      (B : list Z) :
  td_wf args h N ->
  l_delays L = td_delays args ->
  l_x L = td_x args ->
  td_tlists h (td_x args) = Ok (l_tlists L) ->
  Forall (fun v => 0 <= v < N) B ->
  exists b h', td_body h (a_y args) (a_weights args) L B = Ok (b, h').
Proof.
  intros Hwf HLd HLx Htl HB.
  pose proof Hwf as (HN & Hx0 & HD & Hbs & Hx & Hy & Hw).
  unfold td_body. rewrite HLd, HLx.
  rewrite (mapM_Ok_fmap _ (fun d => delay_ids N d B));
    [|apply Forall_forall; intros d _; rewrite Hx0; reflexivity].
  cbn [rbind].
  destruct (gather_xs_Ok N B (td_delays args)
              (zip (td_x args) (l_tlists L)) HN HD h)
    as (ts & h1 & Hg & Hlen & Hall).
  { intros k xx tl Hk. apply lookup_zip_with_Some in Hk.
    destruct Hk as (x' & t' & [= <- <-] & Hxk & Htk).
    destruct (td_tlists_lookup _ _ _ _ _ Htl Hxk) as (a & Ha & Htk').
    destruct (Hx k xx Hxk) as (a' & n & m & rest & Ha' & Hs & Hn).
    assert (a' = a) by congruence. subst a'.
    exists a, n, m, rest. repeat split; try assumption. congruence. }
  pose proof (gather_xs_ext _ _ _ _ _ Hg) as Hext.
  rewrite Hg. cbn [rbind fst snd].
  assert (Hlt : length (l_tlists L) = length (td_x args))
    by exact (mapM_Ok_length _ _ _ Htl).
  rewrite length_zip in Hlen.
  unfold _standardize_input_data at 1.
  rewrite length_fmap, length_seq.
  replace (length ts =? length (td_x args))%nat with true
    by (symmetry; apply Nat.eqb_eq; lia).
  cbn [rbind].
  assert (Hxb : exists nm t r xb',
             zip (x_batch_name <$> seq 1 (length (td_x args))) ts
             = (nm, t) :: xb' /\ shape t = length B :: r).
  { destruct (td_x args) as [|x0 xs]; [discriminate|].
    destruct ts as [|t ts]; [cbn [length] in *; lia|].
    apply Forall_cons in Hall as [[r Hr] _].
    simpl. eauto 8. }
  destruct (a_y args) as [ly|] eqn:Ey; [|eauto].
  destruct (Hy ly eq_refl) as (ya & n & m & rest & Hya & Hsy & Hn).
  apply Hext in Hya. apply load_Ok in Hya. rewrite Hya. cbn [rbind].
  assert (HB' : Forall (fun v => 0 <= v < Z.of_nat n) B).
  { eapply Forall_impl; [exact HB|]. intros v Hv. simpl in *. lia. }
  destruct (getitem_rows_in_range ya n m rest B Hsy HB') as (yg & Hyg & _).
  rewrite Hyg. cbn [rbind alloc fst snd].
  unfold _standardize_input_data at 1. cbn [length Nat.eqb rbind].
  assert (Hwf2 : td_wf args (h1 ++ [yg]) N).
  { eapply td_wf_ext; [|exact Hwf].
    eapply heap_ext_trans; [exact Hext | apply heap_ext_app]. }
  destruct (td_weights_Ok args _ N _ B Hwf2 HB Hxb)
    as (v & h3 & w0 & r & Hwv & Hvg & Hsw).
  rewrite Hwv. cbn [rbind fst snd].
  destruct (py_last_Ok _ HD) as [dlast Hdl]. rewrite Hdl. cbn [rbind].
  destruct (mask_assign_Ok h3 v ((fun b => b <? dlast) <$> B) s_zero w0 r Hvg)
    as (h4 & w & Hma & Hvg4).
  { rewrite length_fmap. exact Hsw. }
  rewrite Hma. cbn [rbind]. rewrite Hvg4. cbn [rbind].
  unfold _standardize_sample_weights, _standardize_input_data.
  cbn [length Nat.eqb rbind]. eauto.
Qed.

Lemma td_yield_Ok (args : td_args) (h0 : heap) (N : Z) (w : world)
      (L : td_locals) (ia : list Z) (k : nat) (be : window) :
  td_wf args h0 N ->
  heap_ext h0 (w_heap w) ->
  l_delays L = td_delays args ->
  l_x L = td_x args ->
  td_tlists h0 (td_x args) = Ok (l_tlists L) ->
  Permutation ia (py_range N) ->
  exists b w', td_yield args w L ia k be = Ok (b, w', TdAt L ia k).
Proof.
  intros Hwf Hext HLd HLx Htl Hp. unfold td_yield.
  destruct (td_body_Ok args (w_heap w) N L
              (py_slice ia (fst be) (snd be))) as (b & h' & Hb);
    try assumption.
  - exact (td_wf_ext _ _ _ _ Hext Hwf).
  - exact (td_tlists_ext _ _ _ _ Hext Htl).
  - apply Forall_lookup. intros i v Hi.
    destruct (py_slice_lookup _ _ _ _ _ Hi) as [j Hj].
    exact (perm_py_range_lookup _ _ _ _ Hp Hj).
  - rewrite Hb. cbn [rbind fst snd]. eauto.
Qed.

Lemma td_next_progress (args : td_args) (h0 : heap) (N : Z) (w : world)
      (st : td_state) :
  td_wf args h0 N ->
  heap_ext h0 (w_heap w) ->
  td_reachable args h0 st ->
  (st = TdStart -> w_heap w = h0) ->
  exists b w' st', td_next 1 args w st = Some (Ok (b, w', st')).
Proof.
  intros Hwf Hext Hreach Hh0.
  pose proof Hwf as (HN & Hx0 & HD & Hbs & Hx & _).
  destruct st as [|L ia k].
  - pose proof (Hh0 eq_refl) as Hw0.
    destruct (td_tlists_Ok h0 (td_x args)) as [tls Htls].
    { intros q xx Hq. destruct (Hx q xx Hq) as (a & ? & ? & ? & Ha & _).
      eauto. }
    pose proof (ceil_div_is_ceil N (a_batch_size args) Hbs) as Hc.
    unfold is_ceil in Hc.
    assert (Hws : exists be ws,
               _make_batches N (a_batch_size args) = Ok (be :: ws)).
    { unfold _make_batches. destruct (a_batch_size args =? 0) eqn:E; [lia|].
      unfold py_range.
      destruct (Z.to_nat (ceil_div N (a_batch_size args))) eqn:En; [nia|].
      simpl. eauto. }
    destruct Hws as (be & ws & Hws).
    unfold td_next, td_init. rewrite Hw0, Hx0, Htls. cbn [rbind].
    rewrite Hws. cbn [rbind td_while l_batches].
    set (L := {| l_delays := _; l_x := _; l_tlists := _; l_batches := _ |}).
    set (sh := if a_shuffle args then _ else _).
    destruct (td_yield_Ok args h0 N
                {| w_heap := w_heap w; w_rng := snd sh |} L (fst sh) 0 be)
      as (b & w' & Hy); try assumption; try reflexivity.
    + unfold sh. destruct (a_shuffle args);
        [apply np_random_shuffle_perm | reflexivity].
    + rewrite Hy. eauto.
  - pose proof (td_reachable_inv _ _ _ Hreach)
      as (N' & HN' & Hp & HLd & HLx & Htl & Hb & [be0 Hbe0]).
    assert (N' = N).
    { destruct Hwf as (_ & Hx0' & _). congruence. }
    subst N'. unfold td_next.
    destruct (l_batches L !! S k) as [be|] eqn:Eb.
    + destruct (td_yield_Ok args h0 N w L ia (S k) be)
        as (b & w' & Hy); try assumption.
      rewrite Hy. eauto.
    + cbn [td_while].
      destruct (l_batches L) as [|be ws] eqn:El; [destruct k; discriminate|].
      set (sh := if a_shuffle args then _ else _).
      destruct (td_yield_Ok args h0 N
                  {| w_heap := w_heap w; w_rng := snd sh |} L (fst sh) 0 be)
        as (b & w' & Hy); try assumption.
      * eapply perm_trans; [|exact Hp].
        unfold sh. destruct (a_shuffle args);
          [apply np_random_shuffle_perm | reflexivity].
      * rewrite Hy. eauto.
Qed.

(** X9: on well-formed input (source arrays with at least two axes and as
    many rows as the first one, [y] and [weights] likewise, a column 0 in
    [weights], a non-empty delay set, a positive [batch_size], at least one
    row) [time_delay_generator] runs forever: every [next] yields a batch
    within one turn of the [while] loop, none raises, and the generator is
    never exhausted. *)
Theorem td_never_stops (args : td_args) (w : world) (N : Z) (n : nat) :
  td_wf args (w_heap w) N ->
  exists bs w' st',
    td_run n 1 args w TdStart = Some (Ok (bs, w', st'))
    /\ length bs = n.
Proof.
  intros Hwf. set (h0 := w_heap w) in *.
  assert (Hgen : forall (w1 : world) (st : td_state),
             heap_ext h0 (w_heap w1) ->
             td_reachable args h0 st ->
             (st = TdStart -> w_heap w1 = h0) ->
             exists bs w' st',
               td_run n 1 args w1 st = Some (Ok (bs, w', st'))
               /\ length bs = n).
  { induction n as [|n IH]; intros w1 st Hext Hreach Hh0.
    - exists [], w1, st. split; reflexivity.
    - destruct (td_next_progress args h0 N w1 st Hwf Hext Hreach Hh0)
        as (b & w2 & st2 & Hnext).
      pose proof (td_reach_next _ _ _ _ _ _ _ _ Hreach Hh0 Hnext) as Hreach2.
      pose proof (td_next_ext _ _ _ _ _ _ _ Hnext) as Hext2.
      destruct (IH w2 st2) as (bs & w3 & st3 & Hrun & Hlen).
      + eapply heap_ext_trans; eassumption.
      + exact Hreach2.
      + intros ->. apply td_next_inv in Hnext
          as (? & ? & ? & ? & ? & _). discriminate.
      + exists (b :: bs), w3, st3. cbn [td_run]. rewrite Hnext, Hrun.
        split; [reflexivity | simpl; f_equal; exact Hlen]. }
  apply (Hgen w TdStart).
  - apply heap_ext_refl.
  - apply td_reach_start.
  - reflexivity.
Qed.

Lemma td_never_stops_witness :
  exists bs w' st',
    td_run 3 1 ex_args_weights ex_world TdStart = Some (Ok (bs, w', st'))
    /\ length bs = 3%nat.
Proof.
  apply (td_never_stops ex_args_weights ex_world 6 3).
  split; [lia|]. split; [reflexivity|]. split; [discriminate|].
  split; [reflexivity|]. split; [|split].
  - intros [|k] xx Hk; [|destruct k; discriminate].
    injection Hk as <-. exists (ex_array [6; 2]%nat), 6%nat, 2%nat, [].
    split; [reflexivity|]. split; [reflexivity | lia].
  - intros ly [= <-]. exists (ex_array [6; 1]%nat), 6%nat, 1%nat, [].
    split; [reflexivity|]. split; [reflexivity | lia].
  - intros lw [= <-]. exists (ex_array [6; 1]%nat), 6%nat, 0%nat, [].
    split; [reflexivity|]. split; [reflexivity | lia].
Defined.

(** ** Flattening in C order *)

Lemma ravel_lt (sh idx : list nat) :
  Forall2 lt idx sh -> (ravel sh idx < size_of sh)%nat.
Proof.
  intros H. induction H as [|i n idx sh Hi _ IH]; simpl; [lia|].
  fold (size_of sh). nia.
Qed.

Lemma unravel_ravel (sh idx : list nat) :
  Forall2 lt idx sh -> unravel sh (ravel sh idx) = idx.
Proof.
  intros H. induction H as [|i n idx sh Hi Hrest IH]; simpl; [reflexivity|].
  pose proof (ravel_lt sh idx Hrest) as Hlt.
  assert (Hpos : size_of sh <> 0%nat) by lia.
  f_equal.
  - rewrite Nat.div_add_l by exact Hpos.
    rewrite Nat.div_small by exact Hlt. lia.
  - rewrite Nat.add_comm, Nat.Div0.mod_add.
    rewrite Nat.mod_small by exact Hlt. exact IH.
Qed.

Lemma reshape_rows_inv (a y : ndarray) :
  reshape_rows a = Ok y ->
  exists n sh',
    shape a = S n :: sh'
    /\ shape y = [S n; size_of sh']
    /\ forall (i : nat) (idx : list nat),
         Forall2 lt idx sh' ->
         item y [i; ravel sh' idx] = item a (i :: idx).
Proof.
  unfold reshape_rows. destruct (shape a) as [|n sh'] eqn:Hs; [discriminate|].
  destruct n as [|n]; [discriminate|]. simpl. intros [= <-].
  exists n, sh'. split; [reflexivity|]. split; [reflexivity|].
  intros i idx Hidx. simpl. rewrite unravel_ravel by exact Hidx. reflexivity.
Qed.

(** ** The [conv3d] axes list *)

Lemma is_axes_perm_tlist3 (k : nat) :
  is_axes_perm (1 :: 2 :: 0 :: seq 3 k)%nat (S (S (S k))) = true.
Proof.
  unfold is_axes_perm. cbn [length]. rewrite length_seq, Nat.eqb_refl.
  rewrite andb_true_l. apply forallb_forall. intros x Hx.
  apply in_seq in Hx. apply existsb_exists.
  exists x. split; [|apply Nat.eqb_refl].
  destruct x as [|[|[|x]]];
    [right; right; left; reflexivity | left; reflexivity
     | right; left; reflexivity |].
  right. right. right. apply in_seq. lia.
Qed.

Lemma index_of_tlist3 (q k : nat) :
  (q < k)%nat -> index_of (3 + q) (1 :: 2 :: 0 :: seq 3 k)%nat = (3 + q)%nat.
Proof.
  intros Hq. cbn [index_of].
  replace (1 =? 3 + q)%nat with false by (symmetry; apply Nat.eqb_neq; lia).
  replace (2 =? 3 + q)%nat with false by (symmetry; apply Nat.eqb_neq; lia).
  replace (0 =? 3 + q)%nat with false by (symmetry; apply Nat.eqb_neq; lia).
  rewrite index_of_seq by lia. lia.
Qed.

Lemma tlist3_source_index (i a j : nat) (idx : list nat) :
  (fun q => nth (index_of q (1 :: 2 :: 0 :: seq 3 (length idx))%nat)
                (i :: a :: j :: idx) 0%nat)
    <$> seq 0 (S (S (S (length idx))))
  = j :: i :: a :: idx.
Proof.
  change (seq 0 (S (S (S (length idx)))))
    with (0 :: 1 :: 2 :: seq 3 (length idx))%nat.
  rewrite !fmap_cons. f_equal. f_equal. f_equal.
  etransitivity; [|exact (fmap_nth_seq_app 0%nat [i; a; j] idx)].
  apply list_fmap_ext. intros p x Hp.
  apply lookup_seq in Hp as [-> Hp].
  rewrite index_of_tlist3 by exact Hp. reflexivity.
Qed.

(** Transposing with the [conv3d] axes list of line 115 moves the leading
    axis behind the next two and keeps the others. *)
Lemma transpose_tlist3 (g : ndarray) (s0 s1 s2 : nat) (r : list nat) :
  shape g = s0 :: s1 :: s2 :: r ->
  exists t,
    transpose g (1 :: 2 :: 0 :: seq 3 (length r))%nat = Ok t
    /\ shape t = s1 :: s2 :: s0 :: r
    /\ forall (i a j : nat) (idx : list nat),
         length idx = length r ->
         item t (i :: a :: j :: idx) = item g (j :: i :: a :: idx).
Proof.
  intros Hs. unfold transpose, ndim. rewrite Hs. cbn [length].
  rewrite is_axes_perm_tlist3. eexists. split; [reflexivity|].
  split.
  - cbn [shape]. rewrite !fmap_cons. cbn [nth]. do 3 f_equal.
    exact (fmap_nth_seq_app 0%nat [s0; s1; s2] r).
  - intros i a j idx Hlen. cbn [item]. rewrite <- Hlen.
    rewrite tlist3_source_index. reflexivity.
Qed.

(** ** Steps of [time_delay_generator_AE] *)

Lemma ae_yield_inv (x : ndarray) (p : ae_args) (r : rng) (L : ae_locals)
      (ia : list Z) (k : nat) (be : window)
      (b : named ndarray * named ndarray) (r' : rng) (st' : ae_state) :
  ae_yield x p r L ia k be = Ok (b, r', st') ->
  st' = AeAt L ia k
  /\ ae_body x p L (py_slice ia (fst be) (snd be)) = Ok b.
Proof.
  unfold ae_yield. intros H. inv_bind_as H b0 Hb.
  injection H as <- <- <-. split; [reflexivity | exact Hb].
Qed.

Lemma ae_while_inv (fuel : nat) (x : ndarray) (p : ae_args)
      (L : ae_locals) :
  forall (r : rng) (ia : list Z) (b : named ndarray * named ndarray)
         (r' : rng) (st' : ae_state),
    ae_while fuel x p r L ia = Some (Ok (b, r', st')) ->
    exists be ia',
      ael_batches L !! 0%nat = Some be
      /\ st' = AeAt L ia' 0
      /\ Permutation ia' ia
      /\ ae_body x p L (py_slice ia' (fst be) (snd be)) = Ok b.
Proof.
  induction fuel as [|fuel IH]; intros r ia b r' st' H; simpl in H;
    [discriminate|].
  destruct (ael_batches L) as [|be bs] eqn:Eb.
  - apply IH in H as (be & ia' & Hbe & _). discriminate.
  - injection H as H. apply ae_yield_inv in H as (-> & Hbody).
    eexists be, _. split; [reflexivity|]. split; [reflexivity|].
    split; [|exact Hbody].
    destruct (ae_shuffle p); [apply np_random_shuffle_perm | reflexivity].
Qed.

Lemma ae_next_inv (fuel : nat) (x : ndarray) (p : ae_args) (r : rng)
      (st : ae_state) (b : named ndarray * named ndarray) (r' : rng)
      (st' : ae_state) :
  ae_next fuel x p r st = Some (Ok (b, r', st')) ->
  exists L ia k be,
    st' = AeAt L ia k
    /\ ael_batches L !! k = Some be
    /\ ae_body x p L (py_slice ia (fst be) (snd be)) = Ok b
    /\ (st = AeStart -> ael_tlist L = ae_tlist x p)
    /\ (forall L0 ia0 k0, st = AeAt L0 ia0 k0 ->
                          L = L0 /\ Permutation ia ia0).
Proof.
  destruct st as [|L ia0 k0]; simpl; intros H.
  - destruct (ae_init x p) as [[L ia0]|e] eqn:Ei; [|discriminate].
    apply ae_while_inv in H as (be & ia' & Hbe & -> & _ & Hbody).
    exists L, ia', 0%nat, be.
    split; [reflexivity|]. split; [exact Hbe|]. split; [exact Hbody|].
    split; [|discriminate].
    intros _. unfold ae_init in Ei.
    inv_bind_as Ei n Hn. inv_bind_as Ei n' Hn'. inv_bind_as Ei bs Hbs.
    injection Ei as <- _. reflexivity.
  - destruct (ael_batches L !! S k0) as [be|] eqn:Eb.
    + injection H as H. apply ae_yield_inv in H as (-> & Hbody).
      exists L, ia0, (S k0), be.
      split; [reflexivity|]. split; [exact Eb|]. split; [exact Hbody|].
      split; [discriminate|].
      intros ? ? ? [= <- <- <-]. split; reflexivity.
    + apply ae_while_inv in H as (be & ia' & Hbe & -> & Hp & Hbody).
      exists L, ia', 0%nat, be.
      split; [reflexivity|]. split; [exact Hbe|]. split; [exact Hbody|].
      split; [discriminate|].
      intros ? ? ? [= <- <- <-]. split; [reflexivity | exact Hp].
Qed.

Lemma ae_next_keeps_inv (fuel : nat) (x0 x : ndarray) (p : ae_args)
      (r : rng) (st : ae_state) (b : named ndarray * named ndarray)
      (r' : rng) (st' : ae_state) :
  ae_inv x0 p st ->
  (st = AeStart -> x = x0) ->
  ae_next fuel x p r st = Some (Ok (b, r', st')) ->
  ae_inv x0 p st'.
Proof.
  intros Hinv Hx0 H.
  destruct st as [|L0 ia0 k0].
  - rewrite (Hx0 eq_refl) in H. simpl in H.
    destruct (ae_init x0 p) as [[L ia0]|e] eqn:Ei; [|discriminate].
    apply ae_while_inv in H as (be & ia' & Hbe & -> & Hp & _).
    unfold ae_init in Ei.
    inv_bind_as Ei n Hn. inv_bind_as Ei n' Hn'. inv_bind_as Ei bs Hbs.
    injection Ei as <- <-. simpl in *.
    rewrite Hn in Hn'. injection Hn' as <-.
    exists n. split; [exact Hn|]. split; [exact Hp|].
    split; [reflexivity|]. split; [exact Hbs|].
    exists be. exact Hbe.
  - destruct Hinv as (N & HN & Hp0 & Ht & Hmb & _).
    apply ae_next_inv in H as (L & ia & k & be & -> & Hbe & _ & _ & Hst).
    destruct (Hst _ _ _ eq_refl) as (-> & Hp).
    exists N. split; [exact HN|]. split; [rewrite Hp; exact Hp0|].
    split; [exact Ht|]. split; [exact Hmb|].
    exists be. exact Hbe.
Qed.

Lemma ae_reachable_inv (x0 : ndarray) (p : ae_args) (st : ae_state) :
  ae_reachable x0 p st -> ae_inv x0 p st.
Proof.
  induction 1 as [|fuel x r st b r' st' _ IH Hx0 Hnext]; [exact I|].
  exact (ae_next_keeps_inv _ _ _ _ _ _ _ _ _ IH Hx0 Hnext).
Qed.

Lemma length_AE_delay_ids (d : Z) (B : list Z) :
  length (AE_delay_ids d B) = Z.to_nat d.
Proof.
  unfold AE_delay_ids. rewrite length_fmap.
  pose proof (length_py_range d). lia.
Qed.

Lemma AE_delay_ids_row (d : Z) (B : list Z) (j : nat) :
  (j < Z.to_nat d)%nat ->
  AE_delay_ids d B !! j = Some ((fun b => Z.max 0 (b - Z.of_nat j)) <$> B).
Proof.
  intros Hj. unfold AE_delay_ids. rewrite list_lookup_fmap.
  rewrite lookup_py_range by (pose proof (length_py_range d); lia).
  reflexivity.
Qed.

(** Lines 124-126 step by step: the gathered array [g] has one plane per
    delay, holding the rows of [x] at the batch indices moved back by the
    delay and held at row 0. *)
Lemma ae_body_inv (x : ndarray) (p : ae_args) (L : ae_locals) (B : list Z)
      (xb yb : named ndarray) :
  ae_body x p L B = Ok (xb, yb) ->
  exists n m rest g t y,
    shape x = n :: m :: rest
    /\ 1 <= ae_delays p
    /\ shape g = Z.to_nat (ae_delays p) :: length B :: m :: rest
    /\ (forall (i j : nat) (bi : Z) (r : list nat),
          B !! i = Some bi -> (j < Z.to_nat (ae_delays p))%nat ->
          Z.max 0 (bi - Z.of_nat j) < Z.of_nat n
          /\ item g (j :: i :: r)
             = item x (Z.to_nat (Z.max 0 (bi - Z.of_nat j)) :: r))
    /\ transpose g (ael_tlist L) = Ok t
    /\ xb = [("x_batch"%string, t)]
    /\ reshape_rows t = Ok y
    /\ yb = [("y_batch"%string, y)].
Proof.
  unfold ae_body. intros H.
  inv_bind_as H g Hg. inv_bind_as H t Ht. inv_bind_as H xb0 Hxb.
  apply standardize_Ok in Hxb as (_ & ->). cbn [zip zip_with] in H.
  inv_bind_as H y Hy. inv_bind_as H yb0 Hyb.
  apply standardize_Ok in Hyb as (_ & ->). cbn [zip zip_with] in H.
  injection H as <- <-.
  destruct (getitem_rows2_inv _ _ _ Hg)
    as (n & m & rest & ids0 & idss' & rows & Hsx & Hids & Hrows & Hsg & Hig).
  assert (Hlen : length (AE_delay_ids (ae_delays p) B)
                 = Z.to_nat (ae_delays p)) by apply length_AE_delay_ids.
  assert (Hd : 1 <= ae_delays p).
  { rewrite Hids in Hlen. simpl in Hlen. lia. }
  assert (H0 : AE_delay_ids (ae_delays p) B !! 0%nat = Some ids0).
  { rewrite Hids. reflexivity. }
  rewrite AE_delay_ids_row in H0 by lia. injection H0 as H0.
  exists n, m, rest, g, t, y.
  split; [exact Hsx|]. split; [exact Hd|]. split.
  { rewrite Hsg, Hlen, <- H0, length_fmap. reflexivity. }
  split; [|repeat split; assumption].
  intros i j bi r Hi Hj.
  assert (Hrow := AE_delay_ids_row (ae_delays p) B j Hj).
  assert (Hcell : ((fun b => Z.max 0 (b - Z.of_nat j)) <$> B) !! i
                  = Some (Z.max 0 (bi - Z.of_nat j))).
  { rewrite list_lookup_fmap, Hi. reflexivity. }
  destruct (rows2_lookup _ _ _ _ _ _ _ Hrows Hrow Hcell) as (q & Hq & Hn).
  apply norm_index_nonneg_Ok in Hq as (-> & Hlt); [|lia].
  split; [exact Hlt|]. rewrite Hig, Hn. reflexivity.
Qed.

Lemma ae_next_body (fuel : nat) (x0 x : ndarray) (p : ae_args) (r : rng)
      (st : ae_state) (b : named ndarray * named ndarray) (r' : rng)
      (st' : ae_state) :
  ae_reachable x0 p st ->
  (st = AeStart -> x = x0) ->
  ndim x = ndim x0 ->
  ae_next fuel x p r st = Some (Ok (b, r', st')) ->
  exists L ia k be,
    st' = AeAt L ia k
    /\ ael_batches L !! k = Some be
    /\ ael_tlist L = ae_tlist x p
    /\ ae_body x p L (py_slice ia (fst be) (snd be)) = Ok b.
Proof.
  intros Hreach Hx0 Hnd Hnext.
  pose proof (ae_reachable_inv _ _ _
                (ae_reach_next _ _ _ _ _ _ _ _ _ Hreach Hx0 Hnext)) as Hinv.
  apply ae_next_inv in Hnext as (L & ia & k & be & -> & Hbe & Hbody & _).
  destruct Hinv as (N & _ & _ & Ht & _).
  exists L, ia, k, be. split; [reflexivity|]. split; [exact Hbe|].
  split; [|exact Hbody].
  rewrite Ht. unfold ae_tlist. rewrite Hnd. reflexivity.
Qed.

(** X10: every value yielded by [time_delay_generator_AE] without [conv3d]
    is a pair of one array named [x_batch] and one named [y_batch]. For the
    batch indices [B] (never empty) and [D = delays >= 1] the array
    [x_batch] has shape [(|B|, D, trailing dims of x)] and holds at
    [(i, j)] the row [max(0, B[i] - j)] of [x]: the sample itself and its
    [D - 1] predecessors, held at row 0. [y_batch] has shape
    [(|B|, D * size of a row of x)] and is [x_batch] with each sample
    flattened in C order: the target of the autoencoder is its input. *)
Theorem ae_next_batch (fuel : nat) (x0 x : ndarray) (p : ae_args) (r : rng)
        (st : ae_state) (xb yb : named ndarray) (r' : rng)
        (st' : ae_state) :
  ae_reachable x0 p st ->
  (st = AeStart -> x = x0) ->
  ndim x = ndim x0 ->
  ae_conv3d p = false ->
  ae_next fuel x p r st = Some (Ok ((xb, yb), r', st')) ->
  exists L ia k be n m rest t y,
    st' = AeAt L ia k
    /\ ael_batches L !! k = Some be
    /\ shape x = n :: m :: rest
    /\ 1 <= ae_delays p
    /\ xb = [("x_batch"%string, t)]
    /\ yb = [("y_batch"%string, y)]
    /\ (0 < length (py_slice ia (fst be) (snd be)))%nat
    /\ shape t = length (py_slice ia (fst be) (snd be))
                 :: Z.to_nat (ae_delays p) :: m :: rest
    /\ shape y = [length (py_slice ia (fst be) (snd be));
                  size_of (Z.to_nat (ae_delays p) :: m :: rest)]
    /\ (forall (i j : nat) (bi : Z) (idx : list nat),
          py_slice ia (fst be) (snd be) !! i = Some bi ->
          (j < Z.to_nat (ae_delays p))%nat ->
          length idx = S (length rest) ->
          item t (i :: j :: idx)
          = item x (Z.to_nat (Z.max 0 (bi - Z.of_nat j)) :: idx))
    /\ (forall (i : nat) (idx : list nat),
          Forall2 lt idx (Z.to_nat (ae_delays p) :: m :: rest) ->
          item y [i; ravel (Z.to_nat (ae_delays p) :: m :: rest) idx]
          = item t (i :: idx)).
Proof.
  intros Hreach Hx0 Hnd Hconv Hnext.
  destruct (ae_next_body _ _ _ _ _ _ _ _ _ Hreach Hx0 Hnd Hnext)
    as (L & ia & k & be & -> & Hbe & Htl & Hbody).
  destruct (ae_body_inv _ _ _ _ _ _ Hbody)
    as (n & m & rest & g & t & y & Hsx & Hd & Hsg & Hg & Ht & -> & Hy & ->).
  rewrite Htl in Ht. unfold ae_tlist, ndim in Ht.
  rewrite Hconv, Hsx in Ht. cbn [length] in Ht.
  replace (S (S (length rest)) - 1)%nat with (length (m :: rest)) in Ht
    by (simpl; lia).
  destruct (transpose_tlist g _ _ _ Hsg) as (t0 & Ht0 & Hst & Hit).
  rewrite Ht0 in Ht. injection Ht as ->.
  destruct (reshape_rows_inv _ _ Hy) as (n' & sh' & Hst' & Hsy & Hiy).
  rewrite Hst in Hst'. injection Hst' as Hlen <-.
  exists L, ia, k, be, n, m, rest, t, y.
  split; [reflexivity|]. split; [exact Hbe|]. split; [exact Hsx|].
  split; [exact Hd|]. split; [reflexivity|]. split; [reflexivity|].
  split; [lia|]. split; [exact Hst|]. split.
  { rewrite Hsy, Hlen. reflexivity. }
  split.
  - intros i j bi idx Hi Hj Hidx.
    rewrite Hit by exact Hidx.
    exact (proj2 (Hg i j bi idx Hi Hj)).
  - intros i idx Hidx. apply Hiy. exact Hidx.
Qed.

Lemma ae_next_batch_witness :
  exists xb yb r' st' L ia k be n m rest t y,
    ae_next 1 (ex_array [6; 2; 3]%nat) ex_ae ex_rng AeStart
    = Some (Ok ((xb, yb), r', st'))
    /\ st' = AeAt L ia k
    /\ ael_batches L !! k = Some be
    /\ shape (ex_array [6; 2; 3]%nat) = n :: m :: rest
    /\ 1 <= ae_delays ex_ae
    /\ xb = [("x_batch"%string, t)]
    /\ yb = [("y_batch"%string, y)]
    /\ (0 < length (py_slice ia (fst be) (snd be)))%nat
    /\ shape t = length (py_slice ia (fst be) (snd be))
                 :: Z.to_nat (ae_delays ex_ae) :: m :: rest
    /\ shape y = [length (py_slice ia (fst be) (snd be));
                  size_of (Z.to_nat (ae_delays ex_ae) :: m :: rest)]
    /\ (forall (i j : nat) (bi : Z) (idx : list nat),
          py_slice ia (fst be) (snd be) !! i = Some bi ->
          (j < Z.to_nat (ae_delays ex_ae))%nat ->
          length idx = S (length rest) ->
          item t (i :: j :: idx)
          = item (ex_array [6; 2; 3]%nat)
                 (Z.to_nat (Z.max 0 (bi - Z.of_nat j)) :: idx))
    /\ (forall (i : nat) (idx : list nat),
          Forall2 lt idx (Z.to_nat (ae_delays ex_ae) :: m :: rest) ->
          item y [i; ravel (Z.to_nat (ae_delays ex_ae) :: m :: rest) idx]
          = item t (i :: idx)).
Proof.
  destruct (ae_next 1 (ex_array [6; 2; 3]%nat) ex_ae ex_rng AeStart)
    as [[[[[xb yb] r'] st']|e]|] eqn:Hnext;
    try (vm_compute in Hnext; discriminate).
  destruct (ae_next_batch 1 (ex_array [6; 2; 3]%nat)
              (ex_array [6; 2; 3]%nat) ex_ae ex_rng AeStart xb yb r' st'
              (ae_reach_start _ _) (fun _ => eq_refl) eq_refl eq_refl Hnext)
    as (L & ia & k & be & n & m & rest & t & y & H).
  exists xb, yb, r', st', L, ia, k, be, n, m, rest, t, y.
  split; [reflexivity | exact H].
Defined.

(** X11: with [conv3d] set, a value yielded by [time_delay_generator_AE]
    carries the delay axis in third place: for the batch indices [B] and
    [D = delays >= 1], [x_batch] has shape
    [(|B|, x.shape[1], D, remaining dims of x)] and its element at
    [(i, a, j, ...)] is the element [(max(0, B[i] - j), a, ...)] of [x].
    [y_batch] is again [x_batch] with each sample flattened in C order. *)
Theorem ae_next_batch_conv3d (fuel : nat) (x0 x : ndarray) (p : ae_args)
        (r : rng) (st : ae_state) (xb yb : named ndarray) (r' : rng)
        (st' : ae_state) :
  ae_reachable x0 p st ->
  (st = AeStart -> x = x0) ->
  ndim x = ndim x0 ->
  ae_conv3d p = true ->
  ae_next fuel x p r st = Some (Ok ((xb, yb), r', st')) ->
  exists L ia k be n m rest t y,
    st' = AeAt L ia k
    /\ ael_batches L !! k = Some be
    /\ shape x = n :: m :: rest
    /\ 1 <= ae_delays p
    /\ xb = [("x_batch"%string, t)]
    /\ yb = [("y_batch"%string, y)]
    /\ (0 < length (py_slice ia (fst be) (snd be)))%nat
    /\ shape t = length (py_slice ia (fst be) (snd be))
                 :: m :: Z.to_nat (ae_delays p) :: rest
    /\ shape y = [length (py_slice ia (fst be) (snd be));
                  size_of (m :: Z.to_nat (ae_delays p) :: rest)]
    /\ (forall (i a j : nat) (bi : Z) (idx : list nat),
          py_slice ia (fst be) (snd be) !! i = Some bi ->
          (j < Z.to_nat (ae_delays p))%nat ->
          length idx = length rest ->
          item t (i :: a :: j :: idx)
          = item x (Z.to_nat (Z.max 0 (bi - Z.of_nat j)) :: a :: idx))
    /\ (forall (i : nat) (idx : list nat),
          Forall2 lt idx (m :: Z.to_nat (ae_delays p) :: rest) ->
          item y [i; ravel (m :: Z.to_nat (ae_delays p) :: rest) idx]
          = item t (i :: idx)).
Proof.
  intros Hreach Hx0 Hnd Hconv Hnext.
  destruct (ae_next_body _ _ _ _ _ _ _ _ _ Hreach Hx0 Hnd Hnext)
    as (L & ia & k & be & -> & Hbe & Htl & Hbody).
  destruct (ae_body_inv _ _ _ _ _ _ Hbody)
    as (n & m & rest & g & t & y & Hsx & Hd & Hsg & Hg & Ht & -> & Hy & ->).
  rewrite Htl in Ht. unfold ae_tlist, ndim in Ht.
  rewrite Hconv, Hsx in Ht. cbn [length] in Ht.
  replace (S (S (length rest)) + 1 - 3)%nat with (length rest) in Ht by lia.
  destruct (transpose_tlist3 g _ _ _ _ Hsg) as (t0 & Ht0 & Hst & Hit).
  rewrite Ht0 in Ht. injection Ht as ->.
  destruct (reshape_rows_inv _ _ Hy) as (n' & sh' & Hst' & Hsy & Hiy).
  rewrite Hst in Hst'. injection Hst' as Hlen <-.
  exists L, ia, k, be, n, m, rest, t, y.
  split; [reflexivity|]. split; [exact Hbe|]. split; [exact Hsx|].
  split; [exact Hd|]. split; [reflexivity|]. split; [reflexivity|].
  split; [lia|]. split; [exact Hst|]. split.
  { rewrite Hsy, Hlen. reflexivity. }
  split.
  - intros i a j bi idx Hi Hj Hidx.
    rewrite Hit by exact Hidx.
    exact (proj2 (Hg i j bi (a :: idx) Hi Hj)).
  - intros i idx Hidx. apply Hiy. exact Hidx.
Qed.

Lemma ae_next_batch_conv3d_witness :
  exists xb yb r' st' L ia k be n m rest t y,
    ae_next 1 (ex_array [6; 2; 3]%nat) ex_ae3 ex_rng AeStart
    = Some (Ok ((xb, yb), r', st'))
    /\ st' = AeAt L ia k
    /\ ael_batches L !! k = Some be
    /\ shape (ex_array [6; 2; 3]%nat) = n :: m :: rest
    /\ 1 <= ae_delays ex_ae3
    /\ xb = [("x_batch"%string, t)]
    /\ yb = [("y_batch"%string, y)]
    /\ (0 < length (py_slice ia (fst be) (snd be)))%nat
    /\ shape t = length (py_slice ia (fst be) (snd be))
                 :: m :: Z.to_nat (ae_delays ex_ae3) :: rest
    /\ shape y = [length (py_slice ia (fst be) (snd be));
                  size_of (m :: Z.to_nat (ae_delays ex_ae3) :: rest)]
    /\ (forall (i a j : nat) (bi : Z) (idx : list nat),
          py_slice ia (fst be) (snd be) !! i = Some bi ->
          (j < Z.to_nat (ae_delays ex_ae3))%nat ->
          length idx = length rest ->
          item t (i :: a :: j :: idx)
          = item (ex_array [6; 2; 3]%nat)
                 (Z.to_nat (Z.max 0 (bi - Z.of_nat j)) :: a :: idx))
    /\ (forall (i : nat) (idx : list nat),
          Forall2 lt idx (m :: Z.to_nat (ae_delays ex_ae3) :: rest) ->
          item y [i; ravel (m :: Z.to_nat (ae_delays ex_ae3) :: rest) idx]
          = item t (i :: idx)).
Proof.
  destruct (ae_next 1 (ex_array [6; 2; 3]%nat) ex_ae3 ex_rng AeStart)
    as [[[[[xb yb] r'] st']|e]|] eqn:Hnext;
    try (vm_compute in Hnext; discriminate).
  destruct (ae_next_batch_conv3d 1 (ex_array [6; 2; 3]%nat)
              (ex_array [6; 2; 3]%nat) ex_ae3 ex_rng AeStart xb yb r' st'
              (ae_reach_start _ _) (fun _ => eq_refl) eq_refl eq_refl Hnext)
    as (L & ia & k & be & n & m & rest & t & y & H).
  exists xb, yb, r', st', L, ia, k, be, n, m, rest, t, y.
  split; [reflexivity | exact H].
Defined.

(** ** The passes of [time_delay_generator_AE] *)

Lemma shape0_nonneg (a : ndarray) (N : Z) : shape0 a = Ok N -> 0 <= N.
Proof.
  unfold shape0. destruct (shape a); [discriminate|]. intros [= <-]. lia.
Qed.

Lemma ae_inv_batch (x0 : ndarray) (p : ae_args) (L : ae_locals)
      (ia : list Z) (k : nat) :
  ae_inv x0 p (AeAt L ia k) ->
  exists N,
    shape0 x0 = Ok N
    /\ Permutation ia (py_range N)
    /\ 0 < ae_batch_size p
    /\ Z.of_nat k * ae_batch_size p < N
    /\ ael_batches L !! k
       = Some (Z.of_nat k * ae_batch_size p,
               Z.min N ((Z.of_nat k + 1) * ae_batch_size p))
    /\ Z.of_nat (length ia) = N
    /\ Z.of_nat (length (ael_batches L)) = ceil_div N (ae_batch_size p).
Proof.
  intros (N & HN & Hp & _ & Hb & [be Hbe]).
  exists N. split; [exact HN|]. split; [exact Hp|].
  pose proof (shape0_nonneg _ _ HN) as HN0.
  destruct (make_batches_Ok _ _ _ Hb) as [Hne Hws].
  rewrite Hws in Hbe |- *. rewrite list_lookup_fmap in Hbe |- *.
  destruct (py_range _ !! k) as [v|] eqn:Hv; [|discriminate].
  apply lookup_py_range_Some in Hv as [-> Hk].
  assert (Hbs : 0 < ae_batch_size p).
  { destruct (Z_lt_le_dec 0 (ae_batch_size p)) as [|Hle]; [assumption|].
    pose proof (ceil_div_nonpos N (ae_batch_size p) HN0 ltac:(lia)). lia. }
  pose proof (ceil_div_is_ceil N (ae_batch_size p) Hbs) as Hc.
  unfold is_ceil in Hc.
  split; [exact Hbs|]. split; [nia|]. split; [reflexivity|].
  split; [apply perm_py_range_length; assumption|].
  rewrite length_fmap.
  pose proof (length_py_range (ceil_div N (ae_batch_size p))). lia.
Qed.

(** X12: a pass of [time_delay_generator_AE] visits every row of [x] exactly
    once: the slices of the current index array taken by the batches of the
    pass concatenate to that array, which is a permutation of [0, N), [N]
    being [x.shape[0]] when the generator started. There are
    [ceil(N / batch_size)] batches; the batch just yielded, number [k] of
    its pass, has [min(batch_size, N - k*batch_size) >= 1] indices, all of
    them rows of [0, N). *)
Theorem ae_pass_partition (fuel : nat) (x0 x : ndarray) (p : ae_args)
        (r : rng) (st : ae_state) (b : named ndarray * named ndarray)
        (r' : rng) (st' : ae_state) :
  ae_reachable x0 p st ->
  (st = AeStart -> x = x0) ->
  ae_next fuel x p r st = Some (Ok (b, r', st')) ->
  exists L ia k be N,
    st' = AeAt L ia k
    /\ shape0 x0 = Ok N
    /\ ael_batches L !! k = Some be
    /\ ae_body x p L (py_slice ia (fst be) (snd be)) = Ok b
    /\ Permutation ia (py_range N)
    /\ NoDup ia
    /\ concat ((fun w : window => py_slice ia (fst w) (snd w))
                 <$> ael_batches L) = ia
    /\ Z.of_nat (length (ael_batches L)) = ceil_div N (ae_batch_size p)
    /\ Z.of_nat (length (py_slice ia (fst be) (snd be)))
       = Z.min (ae_batch_size p) (N - Z.of_nat k * ae_batch_size p)
    /\ (0 < length (py_slice ia (fst be) (snd be)))%nat
    /\ Forall (fun v => 0 <= v < N) (py_slice ia (fst be) (snd be)).
Proof.
  intros Hreach Hx0 Hnext.
  pose proof (ae_reachable_inv _ _ _
                (ae_reach_next _ _ _ _ _ _ _ _ _ Hreach Hx0 Hnext)) as Hinv.
  apply ae_next_inv in Hnext as (L & ia & k & be & -> & Hbe & Hbody & _).
  destruct (ae_inv_batch _ _ _ _ _ Hinv)
    as (N & HN & Hp & Hbs & Hk & Hbk & Hlen & Hnb).
  destruct Hinv as (N' & HN' & _ & _ & Hmb & _).
  assert (N' = N) by congruence. subst N'.
  assert (be = (Z.of_nat k * ae_batch_size p,
                Z.min N ((Z.of_nat k + 1) * ae_batch_size p)))
    by congruence.
  subst be. cbn [fst snd] in *.
  exists L, ia, k, (Z.of_nat k * ae_batch_size p,
                    Z.min N ((Z.of_nat k + 1) * ae_batch_size p)), N.
  cbn [fst snd].
  split; [reflexivity|]. split; [exact HN|]. split; [exact Hbk|].
  split; [exact Hbody|]. split; [exact Hp|]. split.
  { rewrite Hp. apply py_range_NoDup. }
  split; [exact (make_batches_concat ia N _ _ Hbs Hlen Hmb)|].
  split; [exact Hnb|].
  assert (Hl : Z.of_nat (length (py_slice ia (Z.of_nat k * ae_batch_size p)
                       (Z.min N ((Z.of_nat k + 1) * ae_batch_size p))))
               = Z.min (ae_batch_size p)
                       (N - Z.of_nat k * ae_batch_size p)).
  { rewrite py_slice_nonneg by lia. rewrite length_take, length_drop. lia. }
  split; [exact Hl|]. split; [lia|].
  apply Forall_lookup. intros i v Hi.
  destruct (py_slice_lookup _ _ _ _ _ Hi) as [j Hj].
  exact (perm_py_range_lookup _ _ _ _ Hp Hj).
Qed.

Lemma ae_pass_partition_witness :
  exists b r' st' L ia k be N,
    ae_next 1 (ex_array [6; 2; 3]%nat) ex_ae ex_rng AeStart
    = Some (Ok (b, r', st'))
    /\ st' = AeAt L ia k
    /\ shape0 (ex_array [6; 2; 3]%nat) = Ok N
    /\ ael_batches L !! k = Some be
    /\ ae_body (ex_array [6; 2; 3]%nat) ex_ae L
               (py_slice ia (fst be) (snd be)) = Ok b
    /\ Permutation ia (py_range N)
    /\ NoDup ia
    /\ concat ((fun w : window => py_slice ia (fst w) (snd w))
                 <$> ael_batches L) = ia
    /\ Z.of_nat (length (ael_batches L)) = ceil_div N (ae_batch_size ex_ae)
    /\ Z.of_nat (length (py_slice ia (fst be) (snd be)))
       = Z.min (ae_batch_size ex_ae) (N - Z.of_nat k * ae_batch_size ex_ae)
    /\ (0 < length (py_slice ia (fst be) (snd be)))%nat
    /\ Forall (fun v => 0 <= v < N) (py_slice ia (fst be) (snd be)).
Proof.
  destruct (ae_next 1 (ex_array [6; 2; 3]%nat) ex_ae ex_rng AeStart)
    as [[[[b r'] st']|e]|] eqn:Hnext;
    try (vm_compute in Hnext; discriminate).
  destruct (ae_pass_partition 1 (ex_array [6; 2; 3]%nat)
              (ex_array [6; 2; 3]%nat) ex_ae ex_rng AeStart b r' st'
              (ae_reach_start _ _) (fun _ => eq_refl) Hnext)
    as (L & ia & k & be & N & H).
  exists b, r', st', L, ia, k, be, N. split; [reflexivity | exact H].
Defined.

(** ** Progress of [time_delay_generator_AE] *)

Lemma ae_tlist_shape (x x0 : ndarray) (p : ae_args) :
  shape x = shape x0 -> ae_tlist x p = ae_tlist x0 p.
Proof. intros H. unfold ae_tlist, ndim. rewrite H. reflexivity. Qed.

Lemma ae_transpose_Ok (x g : ndarray) (p : ae_args) (n m s0 s1 : nat)
      (rest : list nat) :
  shape x = n :: m :: rest ->
  shape g = s0 :: s1 :: m :: rest ->
  exists t, transpose g (ae_tlist x p) = Ok t
            /\ exists sh', shape t = s1 :: sh'.
Proof.
  intros Hsx Hsg. unfold ae_tlist, ndim. rewrite Hsx. cbn [length].
  destruct (ae_conv3d p).
  - replace (S (S (length rest)) + 1 - 3)%nat with (length rest) by lia.
    destruct (transpose_tlist3 g _ _ _ _ Hsg) as (t & Ht & Hst & _).
    exists t. split; [exact Ht|]. eexists. exact Hst.
  - replace (S (S (length rest)) - 1)%nat with (length (m :: rest))
      by (simpl; lia).
    destruct (transpose_tlist g _ _ _ Hsg) as (t & Ht & Hst & _).
    exists t. split; [exact Ht|]. eexists. exact Hst.
Qed.

Lemma ae_body_Ok (x : ndarray) (p : ae_args) (L : ae_locals) (B : list Z)
      (n m : nat) (rest : list nat) :
  shape x = n :: m :: rest ->
  1 <= ae_delays p ->
  ael_tlist L = ae_tlist x p ->
  (0 < length B)%nat ->
  Forall (fun v => 0 <= v < Z.of_nat n) B ->
  exists b, ae_body x p L B = Ok b.
Proof.
  intros Hsx Hd Htl HB Hin.
  pose proof (length_AE_delay_ids (ae_delays p) B) as Hlen.
  assert (Hrows : forall (j : nat) (ids : list Z),
             AE_delay_ids (ae_delays p) B !! j = Some ids ->
             length ids = length B
             /\ Forall (fun v => 0 <= v < Z.of_nat n) ids).
  { intros j ids Hj. apply AE_delay_ids_lookup in Hj as [_ ->].
    split; [apply length_fmap|].
    rewrite Forall_fmap. eapply Forall_impl; [exact Hin|].
    intros v Hv. unfold compose. simpl in *. lia. }
  unfold ae_body.
  destruct (AE_delay_ids (ae_delays p) B) as [|ids0 idss'] eqn:E;
    [simpl in Hlen; lia|].
  destruct (Hrows 0%nat ids0 eq_refl) as [Hl0 _].
  destruct (getitem_rows2_in_range x n m rest ids0 idss' Hsx)
    as (g & Hg & Hsg).
  { apply Forall_lookup. intros j ids Hj.
    destruct (Hrows j ids Hj) as [Hl _]. congruence. }
  { apply Forall_lookup. intros j ids Hj. exact (proj2 (Hrows j ids Hj)). }
  rewrite Hg. cbn [rbind]. rewrite Htl.
  destruct (ae_transpose_Ok x g p n m _ _ rest Hsx Hsg)
    as (t & Ht & sh' & Hst).
  rewrite Ht. cbn [rbind].
  unfold _standardize_input_data. cbn [length Nat.eqb rbind zip zip_with].
  unfold reshape_rows. rewrite Hst.
  destruct (length ids0) as [|q] eqn:Eq; [lia|].
  cbn [Nat.eqb rbind length zip zip_with]. eexists. reflexivity.
Qed.

Lemma ae_yield_Ok (x0 x : ndarray) (p : ae_args) (r : rng) (L : ae_locals)
      (ia : list Z) (k : nat) (be : window) (n m : nat) (rest : list nat) :
  shape x0 = n :: m :: rest ->
  shape x = shape x0 ->
  1 <= ae_delays p ->
  ae_inv x0 p (AeAt L ia k) ->
  ael_batches L !! k = Some be ->
  exists b, ae_yield x p r L ia k be = Ok (b, r, AeAt L ia k).
Proof.
  intros Hs0 Hsx Hd Hinv Hbe.
  destruct (ae_inv_batch _ _ _ _ _ Hinv)
    as (N & HN & Hp & Hbs & Hk & Hbk & Hlen & _).
  destruct Hinv as (_ & _ & _ & Htl & _).
  assert (HNn : N = Z.of_nat n).
  { unfold shape0 in HN. rewrite Hs0 in HN. congruence. }
  pose proof (eq_trans (eq_sym Hbe) Hbk) as Ebe. injection Ebe as ->.
  unfold ae_yield. cbn [fst snd].
  destruct (ae_body_Ok x p L
              (py_slice ia (Z.of_nat k * ae_batch_size p)
                        (Z.min N ((Z.of_nat k + 1) * ae_batch_size p)))
              n m rest) as (b & Hb).
  - rewrite Hsx. exact Hs0.
  - exact Hd.
  - rewrite Htl. symmetry. apply ae_tlist_shape. exact Hsx.
  - rewrite py_slice_nonneg by lia. rewrite length_take, length_drop. lia.
  - apply Forall_lookup. intros i v Hi.
    destruct (py_slice_lookup _ _ _ _ _ Hi) as [j Hj].
    pose proof (perm_py_range_lookup _ _ _ _ Hp Hj). lia.
  - rewrite Hb. cbn [rbind]. eauto.
Qed.

(** X13: on an array with at least two axes and at least one row, with
    [delays >= 1] and a positive [batch_size], [time_delay_generator_AE]
    never stops and never raises: from every state it can reach, [next]
    yields a batch within one turn of the [while] loop, whatever the random
    source, as long as the array keeps its shape. *)
Theorem ae_next_yields (x0 x : ndarray) (p : ae_args) (r : rng)
        (st : ae_state) (n m : nat) (rest : list nat) :
  shape x0 = S n :: m :: rest ->
  1 <= ae_delays p ->
  0 < ae_batch_size p ->
  ae_reachable x0 p st ->
  shape x = shape x0 ->
  (st = AeStart -> x = x0) ->
  exists b r' st',
    ae_next 1 x p r st = Some (Ok (b, r', st'))
    /\ ae_reachable x0 p st'.
Proof.
  intros Hs0 Hd Hbs Hreach Hsx Hx0.
  assert (Hstep : exists b r' st',
             ae_next 1 x p r st = Some (Ok (b, r', st'))).
  { destruct st as [|L ia k].
    - pose proof (Hx0 eq_refl) as ->.
      pose proof (ceil_div_is_ceil (Z.of_nat (S n)) (ae_batch_size p) Hbs)
        as Hc.
      unfold is_ceil in Hc.
      assert (Hws : exists be ws,
                 _make_batches (Z.of_nat (S n)) (ae_batch_size p)
                 = Ok (be :: ws)).
      { unfold _make_batches.
        destruct (ae_batch_size p =? 0) eqn:E; [lia|].
        unfold py_range.
        destruct (Z.to_nat (ceil_div (Z.of_nat (S n)) (ae_batch_size p)))
          eqn:En; [nia|].
        simpl. eauto. }
      destruct Hws as (be & ws & Hws).
      unfold ae_next, ae_init, shape0. rewrite Hs0. cbn [rbind].
      rewrite Hws. cbn [rbind ae_while ael_batches].
      set (L := {| ael_tlist := _; ael_batches := _ |}).
      set (sh := if ae_shuffle p then _ else _).
      destruct (ae_yield_Ok x0 x0 p (snd sh) L (fst sh) 0 be (S n) m rest)
        as (b & Hy); try assumption; try reflexivity.
      + exists (Z.of_nat (S n)).
        split; [unfold shape0; rewrite Hs0; reflexivity|].
        split.
        { unfold sh. destruct (ae_shuffle p);
            [apply np_random_shuffle_perm | reflexivity]. }
        split; [reflexivity|]. split; [exact Hws|].
        exists be. reflexivity.
      + rewrite Hy. eauto.
    - pose proof (ae_reachable_inv _ _ _ Hreach) as Hinv.
      pose proof Hinv as (N & HN & Hp & Htl & Hb & [be0 Hbe0]).
      unfold ae_next.
      destruct (ael_batches L !! S k) as [be|] eqn:Eb.
      + destruct (ae_yield_Ok x0 x p r L ia (S k) be (S n) m rest)
          as (b & Hy); try assumption.
        * exists N. repeat (split; [assumption|]). exists be. exact Eb.
        * rewrite Hy. eauto.
      + cbn [ae_while].
        destruct (ael_batches L) as [|be ws] eqn:El;
          [destruct k; discriminate|].
        set (sh := if ae_shuffle p then _ else _).
        destruct (ae_yield_Ok x0 x p (snd sh) L (fst sh) 0 be (S n) m rest)
          as (b & Hy); try assumption.
        * exists N. split; [exact HN|]. split.
          { eapply perm_trans; [|exact Hp].
            unfold sh. destruct (ae_shuffle p);
              [apply np_random_shuffle_perm | reflexivity]. }
          split; [exact Htl|]. split; [rewrite El; exact Hb|].
          exists be. rewrite El. reflexivity.
        * rewrite El. reflexivity.
        * rewrite Hy. eauto. }
  destruct Hstep as (b & r' & st' & Hnext).
  exists b, r', st'. split; [exact Hnext|].
  exact (ae_reach_next _ _ _ _ _ _ _ _ _ Hreach Hx0 Hnext).
Qed.

Lemma ae_next_yields_witness :
  exists b r' st',
    ae_next 1 (ex_array [6; 2; 3]%nat) ex_ae ex_rng AeStart
    = Some (Ok (b, r', st'))
    /\ ae_reachable (ex_array [6; 2; 3]%nat) ex_ae st'.
Proof.
  apply (ae_next_yields (ex_array [6; 2; 3]%nat) (ex_array [6; 2; 3]%nat)
           ex_ae ex_rng AeStart 5 2 [3%nat]).
  - reflexivity.
  - simpl. lia.
  - simpl. lia.
  - apply ae_reach_start.
  - reflexivity.
  - reflexivity.
Defined.



